(** * reduce-tree: a shallow embedding of [reduce-tree.py]

    The program resets the timestamps of the C sources of a tree
    ([--prepare]) and, after a build, copies the files whose access time
    became newer than their modification time into a reduced tree
    ([--collect]).  The embedding follows the script function by function;
    the operating-system and library calls it makes ([os.walk],
    [os.utime], [shutil.copy2], ...) are modelled over an explicit
    filesystem tree. *)

From Stdlib Require Import String Ascii List ZArith Bool Lia.
Import ListNotations.
Open Scope string_scope.

(** ** Path strings *)

Module Path.

(** [s.split('/')] *)
Fixpoint split_slash (s : string) : list string :=
  match s with
  | EmptyString => [EmptyString]
  | String c r =>
      if Ascii.eqb c "/" then EmptyString :: split_slash r
      else match split_slash r with
           | [] => [String c EmptyString]
           | x :: xs => String c x :: xs
           end
  end.

(** ['/'.join(l)] *)
Fixpoint join_slash (l : list string) : string :=
  match l with
  | [] => ""
  | [x] => x
  | x :: r => x ++ "/" ++ join_slash r
  end.

Fixpoint has_slash (s : string) : bool :=
  match s with
  | EmptyString => false
  | String c r => Ascii.eqb c "/" || has_slash r
  end.

(** A name that can be an entry of a directory. *)
Definition valid_name (s : string) : bool :=
  negb (has_slash s) && negb (s =? "") && negb (s =? ".") && negb (s =? "..").

(** One step of [posixpath.normpath] over the stack of components kept so
    far: empty and [.] components are dropped, [..] pops. *)
Definition norm_step (stack : list string) (c : string) : list string :=
  if (c =? "") || (c =? ".") then stack
  else if c =? ".." then removelast stack
  else stack ++ [c].

Definition isabs (s : string) : bool :=
  match s with
  | String c _ => Ascii.eqb c "/"
  | EmptyString => false
  end.

(** [os.path.abspath]: the components of the normalised absolute path of
    [s], for a process whose working directory has components [cwd]. *)
Definition abspath (cwd : list string) (s : string) : list string :=
  fold_left norm_step (split_slash s) (if isabs s then [] else cwd).

(** The string of an absolute path given by its components. *)
Definition render (p : list string) : string := "/" ++ join_slash p.

Fixpoint ends_with_slash (s : string) : bool :=
  match s with
  | EmptyString => false
  | String c EmptyString => Ascii.eqb c "/"
  | String _ r => ends_with_slash r
  end.

(** [posixpath.join(a, b)] *)
Definition join (a b : string) : string :=
  if isabs b then b
  else if (a =? "") || ends_with_slash a then a ++ b
  else a ++ "/" ++ b.

(** [s.endswith(suf)] *)
Definition endswith (s suf : string) : bool :=
  (String.length suf <=? String.length s)%nat &&
  (substring (String.length s - String.length suf) (String.length suf) s =? suf).

Fixpoint common_prefix (a b : list string) : nat :=
  match a, b with
  | x :: a', y :: b' => if x =? y then S (common_prefix a' b') else 0
  | _, _ => 0
  end.

(** [posixpath.relpath(path, start)], as its list of components: one
    [..] for every component of [start] below the common prefix, then
    the rest of [path]; [.] when nothing is left. *)
Definition relpath_list (cwd : list string) (path start : string) : list string :=
  let start_list := abspath cwd start in
  let path_list := abspath cwd path in
  let i := common_prefix start_list path_list in
  repeat ".." (List.length start_list - i) ++ skipn i path_list.

Definition relpath (cwd : list string) (path start : string) : string :=
  match relpath_list cwd path start with
  | [] => "."
  | l => join_slash l
  end.

(** [posixpath.split(p)]: the part before the last slash (without its
    trailing slashes, unless it is all slashes) and the part after it. *)
Fixpoint all_slashes (s : string) : bool :=
  match s with
  | EmptyString => true
  | String c r => Ascii.eqb c "/" && all_slashes r
  end.

Fixpoint rstrip_slash (s : string) : string :=
  match s with
  | EmptyString => EmptyString
  | String c r =>
      match rstrip_slash r with
      | EmptyString => if Ascii.eqb c "/" then EmptyString else String c EmptyString
      | r' => String c r'
      end
  end.

(** The position after the last slash of [s] (0 when there is none). *)
Fixpoint after_last_slash (s : string) : nat :=
  match s with
  | EmptyString => 0
  | String c r =>
      if has_slash r then S (after_last_slash r)
      else if Ascii.eqb c "/" then 1 else 0
  end.

Definition split (p : string) : string * string :=
  let i := after_last_slash p in
  let head := substring 0 i p in
  let tail := substring i (String.length p - i) p in
  (if all_slashes head then head else rstrip_slash head, tail).

Definition basename (p : string) : string := snd (split p).

End Path.

(** ** The filesystem *)

(** The filesystem is a tree of directories, regular files and symbolic
    links; a directory is the list of its entries, looked up by name.  The
    process runs as the owner of every file, so what it may read and write
    is decided by the owner bits of the mode.  Directories carry no
    timestamps and no mode.  A symbolic link is a leaf: the model knows
    what the link leads to, and does not follow it. *)

(** Timestamps count microseconds since the epoch, the resolution at which
    [os.utime] stores them. *)
Definition time := Z.
Bind Scope Z_scope with time.

Definition seconds (n : Z) : time := (n * 1000000)%Z.

Record stat := mkstat {
  st_mode : Z;        (* permission bits *)
  st_atime : time;
  st_mtime : time
}.

(** What a symbolic link leads to.  The model does not follow links: it
    only knows what [stat] would find at the end of one. *)
Inductive link_target := Dangling | ToFile | ToDir.

#[warnings="-register-all"]
Inductive node :=
| File (st : stat) (data : string)
| Link (st : stat) (to : link_target)
| Dir (entries : list (string * node)).

Definition path := list string.

Fixpoint assoc (x : string) (es : list (string * node)) : option node :=
  match es with
  | [] => None
  | (y, c) :: r => if y =? x then Some c else assoc x r
  end.

(** Replace the entry named [x], or add it after the others. *)
Fixpoint set_entry (x : string) (v : node) (es : list (string * node))
  : list (string * node) :=
  match es with
  | [] => [(x, v)]
  | (y, c) :: r => if y =? x then (x, v) :: r else (y, c) :: set_entry x v r
  end.

(** The node a path of components leads to, from the node [n].  A path
    does not continue through a file or a symbolic link. *)
Fixpoint resolve (n : node) (p : path) : option node :=
  match p with
  | [] => Some n
  | x :: r =>
      match n with
      | Dir es => match assoc x es with
                  | Some c => resolve c r
                  | None => None
                  end
      | _ => None
      end
  end.

(** Store [v] at [p]: replaces what is there, or adds an entry to the
    parent directory, which has to exist. *)
Fixpoint put (n : node) (p : path) (v : node) : option node :=
  match p with
  | [] => Some v
  | x :: r =>
      match n with
      | Dir es =>
          match assoc x es with
          | Some c => match put c r v with
                      | Some c' => Some (Dir (set_entry x c' es))
                      | None => None
                      end
          | None => match r with
                    | [] => Some (Dir (set_entry x v es))
                    | _ => None
                    end
          end
      | _ => None
      end
  end.

Fixpoint new_dirs (p : path) : node :=
  match p with
  | [] => Dir []
  | x :: r => Dir [(x, new_dirs r)]
  end.

Inductive errno := ENOENT | EACCES | EEXIST | ENOTDIR | EISDIR.

(** [os.makedirs] on the tree: the directories of [p] that are missing are
    created, the last one has to be missing. *)
Fixpoint makedirs_node (n : node) (p : path) : errno + node :=
  match p with
  | [] => inl EEXIST
  | x :: r =>
      match n with
      | Dir es =>
          match assoc x es with
          | Some c => match makedirs_node c r with
                      | inr c' => inr (Dir (set_entry x c' es))
                      | inl e => inl e
                      end
          | None => inr (Dir (set_entry x (new_dirs r) es))
          end
      | File _ _ => inl ENOTDIR
      | Link _ _ => inl ENOENT
      end
  end.

Inductive event :=
| EUtime (p : path) (atime mtime : time)
| EMakedirs (p : path) (mode : Z)
| ECopy (src dst : path).

(** The state of the machine the script runs on: the root directory, the
    working directory of the process, the clock, what was printed, and the
    calls that changed the filesystem, oldest first. *)
Record world := mkworld {
  fs : node;
  cwd : path;
  clock : time;
  stdout : list string;
  trace : list event
}.

(** ** Computations that change the world and may raise *)

Inductive result (A : Type) :=
| Ok (a : A)
| Raise (msg : string).
Arguments Ok {A} a.
Arguments Raise {A} msg.

Definition M (A : Type) := world -> result A * world.

Definition ret {A} (a : A) : M A := fun w => (Ok a, w).
Definition raise {A} (msg : string) : M A := fun w => (Raise msg, w).
Definition bind {A B} (m : M A) (k : A -> M B) : M B :=
  fun w => match m w with
           | (Ok a, w') => k a w'
           | (Raise e, w') => (Raise e, w')
           end.
(** [try: m except Exception as e: h e] *)
Definition try_except {A} (m : M A) (h : string -> M A) : M A :=
  fun w => match m w with
           | (Ok a, w') => (Ok a, w')
           | (Raise e, w') => h e w'
           end.
Definition get : M world := fun w => (Ok w, w).

Notation "x <- m ;; k" := (bind m (fun x => k))
  (at level 61, m at next level, right associativity).
Notation "m ;;; k" := (bind m (fun _ => k))
  (at level 61, right associativity).

(** [for x in l: f x] *)
Fixpoint for_each {A} (l : list A) (f : A -> M unit) : M unit :=
  match l with
  | [] => ret tt
  | x :: r => f x ;;; for_each r f
  end.

(** ** Operating-system and library calls *)

Definition errno_text (e : errno) : string :=
  match e with
  | ENOENT => "[Errno 2] No such file or directory"
  | EACCES => "[Errno 13] Permission denied"
  | EEXIST => "[Errno 17] File exists"
  | ENOTDIR => "[Errno 20] Not a directory"
  | EISDIR => "[Errno 21] Is a directory"
  end.

(** [str(e)] for the [OSError] or [IOError] of a failed call on [s]. *)
Definition oserror (e : errno) (s : string) : string :=
  errno_text e ++ ": '" ++ s ++ "'".

Definition node_at (w : world) (s : string) : option node :=
  resolve (fs w) (Path.abspath (cwd w) s).

Definition set_fs (n : node) (w : world) : world :=
  mkworld n (cwd w) (clock w) (stdout w) (trace w).

(** A call that changes the filesystem takes one tick of the clock. *)
Definition tick (w : world) : world :=
  mkworld (fs w) (cwd w) (clock w + 1)%Z (stdout w) (trace w).

Definition log (e : event) (w : world) : world :=
  mkworld (fs w) (cwd w) (clock w) (stdout w) (trace w ++ [e]).

Definition os_path_abspath (s : string) : M string :=
  fun w => (Ok (Path.render (Path.abspath (cwd w) s)), w).

Definition os_path_relpath (p start : string) : M string :=
  fun w => (Ok (Path.relpath (cwd w) p start), w).

Definition exists_at (w : world) (s : string) : bool :=
  match node_at w s with
  | Some (Link _ Dangling) | None => false
  | Some _ => true
  end.

Definition isdir_at (w : world) (s : string) : bool :=
  match node_at w s with
  | Some (Dir _) | Some (Link _ ToDir) => true
  | _ => false
  end.

Definition islink_at (w : world) (s : string) : bool :=
  match node_at w s with
  | Some (Link _ _) => true
  | _ => false
  end.

Definition os_path_exists (s : string) : M bool := fun w => (Ok (exists_at w s), w).
Definition os_path_isdir (s : string) : M bool := fun w => (Ok (isdir_at w s), w).
Definition os_path_islink (s : string) : M bool := fun w => (Ok (islink_at w s), w).

(** [os.stat], for regular files: directories carry no timestamps here and
    links are not followed, the script asks for neither. *)
Definition os_stat (s : string) : M stat :=
  fun w => match node_at w s with
           | Some (File st _) => (Ok st, w)
           | _ => (Raise (oserror ENOENT s), w)
           end.

Definition os_path_getatime (s : string) : M time :=
  st <- os_stat s ;; ret (st_atime st).

Definition os_path_getmtime (s : string) : M time :=
  st <- os_stat s ;; ret (st_mtime st).

(** Replace the regular file at [s] by [f] of it. *)
Definition update_file (s : string) (f : stat -> string -> node) : M unit :=
  fun w => match node_at w s with
           | Some (File st d) =>
               match put (fs w) (Path.abspath (cwd w) s) (f st d) with
               | Some n => (Ok tt, tick (set_fs n w))
               | None => (Raise (oserror ENOENT s), w)
               end
           | _ => (Raise (oserror ENOENT s), w)
           end.

Definition os_utime (s : string) (atime mtime : time) : M unit :=
  update_file s (fun st d => File (mkstat (st_mode st) atime mtime) d) ;;;
  (fun w => (Ok tt, log (EUtime (Path.abspath (cwd w) s) atime mtime) w)).

Definition os_chmod (s : string) (mode : Z) : M unit :=
  update_file s (fun st d => File (mkstat mode (st_atime st) (st_mtime st)) d).

Definition os_makedirs (s : string) (mode : Z) : M unit :=
  fun w => match makedirs_node (fs w) (Path.abspath (cwd w) s) with
           | inr n => (Ok tt, log (EMakedirs (Path.abspath (cwd w) s) mode)
                                  (tick (set_fs n w)))
           | inl e => (Raise (oserror e s), w)
           end.

Definition owner_can_read (st : stat) : bool := Z.testbit (st_mode st) 8.
Definition owner_can_write (st : stat) : bool := Z.testbit (st_mode st) 7.

(** [open(s, 'rb').read()].  Under [relatime] the read moves the access
    time to now when it was not after the modification time. *)
Definition read_file (s : string) : M string :=
  fun w => match node_at w s with
           | Some (File st d) =>
               if owner_can_read st then
                 if (st_atime st <=? st_mtime st)%Z then
                   match put (fs w) (Path.abspath (cwd w) s)
                             (File (mkstat (st_mode st) (clock w) (st_mtime st)) d) with
                   | Some n => (Ok d, tick (set_fs n w))
                   | None => (Raise (oserror ENOENT s), w)
                   end
                 else (Ok d, tick w)
               else (Raise (oserror EACCES s), w)
           | Some (Dir _) => (Raise (oserror EISDIR s), w)
           | _ => (Raise (oserror ENOENT s), w)
           end.

(** [open(s, 'wb').write(d)]: an existing file is overwritten, a missing
    one is created with mode 0644 in its directory. *)
Definition write_file (s : string) (d : string) : M unit :=
  fun w =>
    let p := Path.abspath (cwd w) s in
    match node_at w s with
    | Some (File st _) =>
        if owner_can_write st then
          match put (fs w) p (File (mkstat (st_mode st) (st_atime st) (clock w)) d) with
          | Some n => (Ok tt, tick (set_fs n w))
          | None => (Raise (oserror ENOENT s), w)
          end
        else (Raise (oserror EACCES s), w)
    | Some (Dir _) => (Raise (oserror EISDIR s), w)
    | Some (Link _ _) => (Raise (oserror ENOENT s), w)
    | None =>
        match put (fs w) p (File (mkstat 420 (clock w) (clock w)) d) with
        | Some n => (Ok tt, tick (set_fs n w))
        | None => (Raise (oserror ENOENT s), w)
        end
    end.

Definition path_eqb (p q : path) : bool :=
  if list_eq_dec string_dec p q then true else false.

(** [shutil.copyfile] *)
Definition shutil_copyfile (src dst : string) : M unit :=
  w <- get ;;
  (if path_eqb (Path.abspath (cwd w) src) (Path.abspath (cwd w) dst)
      && match node_at w src with Some _ => true | None => false end
   then raise ("`" ++ src ++ "` and `" ++ dst ++ "` are the same file")
   else d <- read_file src ;; write_file dst d).

(** [shutil.copystat]: times, then permission bits. *)
Definition shutil_copystat (src dst : string) : M unit :=
  st <- os_stat src ;;
  os_utime dst (st_atime st) (st_mtime st) ;;;
  os_chmod dst (st_mode st).

(** [shutil.copy2] *)
Definition shutil_copy2 (src dst : string) : M unit :=
  d <- os_path_isdir dst ;;
  (let dst := if d then Path.join dst (Path.basename src) else dst in
   shutil_copyfile src dst ;;;
   shutil_copystat src dst ;;;
   (fun w => (Ok tt, log (ECopy (Path.abspath (cwd w) src) (Path.abspath (cwd w) dst)) w))).

Definition time_time : M time := fun w => (Ok (clock w), w).

Definition print (s : string) : M unit :=
  fun w => (Ok tt, mkworld (fs w) (cwd w) (clock w) (stdout w ++ [s]) (trace w)).

(** [sys.getrecursionlimit()] *)
Definition recursionlimit : nat := 1000%nat.

(** What [os.walk] finds in [top]: the names that are directories and
    the others, or nothing when [top] cannot be listed (the model lists
    directories only, not what a link leads to). *)
Definition listing_at (w : world) (top : string) : option (list string * list string) :=
  match node_at w top with
  | Some (Dir es) =>
      let names := map fst es in
      let isdir := fun name => isdir_at w (Path.join top name) in
      Some (filter isdir names, filter (fun name => negb (isdir name)) names)
  | _ => None
  end.

Definition walk_listing (top : string) : M (option (list string * list string)) :=
  fun w => (Ok (listing_at w top), w).

(** [os.walk(top)] driving the body of a [for root, subdirs, files in ...]
    loop.  The generator lists a directory when the loop reaches it, so the
    body runs between the listings; a directory that cannot be listed is
    passed over silently; links to directories are listed and not entered.
    [depth] bounds the nesting of the generator's frames. *)
Fixpoint os_walk (depth : nat) (top : string)
    (body : string -> list string -> list string -> M unit) : M unit :=
  match depth with
  | O => raise "maximum recursion depth exceeded"
  | S depth' =>
      l <- walk_listing top ;;
      match l with
      | None => ret tt
      | Some (subdirs, files) =>
          body top subdirs files ;;;
          for_each subdirs (fun name =>
            let new_path := Path.join top name in
            b <- os_path_islink new_path ;;
            (if b then ret tt else os_walk depth' new_path body))
      end
  end.

(** ** The script *)

(** [f.endswith((".c", ".h"))] *)
Definition is_source (f : string) : bool :=
  Path.endswith f ".c" || Path.endswith f ".h".

(** [parent_copy(src, dst, root)]: copy the file [src] to the directory
    [dst], keeping the directories it has below [root]. *)
Definition parent_copy (src dst root : string) : M unit :=
  try_except
    (rel <- os_path_relpath src root ;;
     (let parent_dirs := fst (Path.split rel) in
      dst <- (if negb (parent_dirs =? "") then
                (let dst := dst ++ "/" ++ parent_dirs in
                 e <- os_path_exists dst ;;
                 (if negb e then os_makedirs dst 493 else ret tt) ;;;
                 ret dst)
              else ret dst) ;;
      shutil_copy2 src dst))
    (fun e => raise ("Could not copy " ++ src ++ ": " ++ e)).

(** The body of the inner loop of [collect_tree], for the entry [f] of the
    directory [root]. *)
Definition collect_file (src dst root f : string) : M unit :=
  if is_source f then
    (let path := root ++ "/" ++ f in
     l <- os_path_islink path ;;
     (if l then ret tt
      else
        a <- os_path_getatime path ;;
        m <- os_path_getmtime path ;;
        (if (m <? a)%Z then parent_copy path dst src else ret tt)))
  else ret tt.

Definition collect_tree (src dst : string) : M unit :=
  try_except
    (src <- os_path_abspath src ;;
     dst <- os_path_abspath dst ;;
     os_walk recursionlimit src (fun root subdirs files =>
       for_each files (collect_file src dst root)))
    (fun e => raise e).

(** The body of the inner loop of [prepare_tree]. *)
Definition prepare_file (a_time m_time : time) (root f : string) : M unit :=
  if is_source f then
    (let path := root ++ "/" ++ f in
     l <- os_path_islink path ;;
     (if negb l then os_utime path a_time m_time else ret tt))
  else ret tt.

Definition prepare_tree (src : string) : M unit :=
  try_except
    (m_time <- time_time ;;
     (let a_time := (m_time - seconds (48 * 3600))%Z in
      os_walk recursionlimit src (fun root subdirs files =>
        for_each files (prepare_file a_time m_time root))))
    (fun e => raise e).

(** The namespace [parse_args()] returns. *)
Record args := mkargs {
  prepare : bool;
  collect : bool;
  src : option string;
  dst : option string
}.

(** [not s], for an option that is a string or [None] *)
Definition unset (s : option string) : bool :=
  match s with
  | None => true
  | Some s => s =? ""
  end.

Definition the (s : option string) : string :=
  match s with
  | None => ""
  | Some s => s
  end.

Definition main (a : args) : M unit :=
  if (prepare a && collect a) || (negb (prepare a) && negb (collect a)) then
    raise "You must use either --collect or --prepare"
  else if prepare a && unset (src a) then
    raise "You must use --src in conjunction with --prepare"
  else if collect a && (unset (src a) || unset (dst a)) then
    raise "You must use --src and --dst in conjunction with --collect"
  else
    e <- os_path_exists (the (src a)) ;;
    (if negb e then
       raise ("Directory " ++ the (src a) ++ " does not exist")
     else if prepare a then
       try_except (prepare_tree (the (src a)))
                  (fun e => raise ("Could not prepare: " ++ e))
     else
       try_except (collect_tree (the (src a)) (the (dst a)))
                  (fun e => raise ("Could not collect: " ++ e))).

(** The block under [if __name__ == "__main__"]. *)
Definition script (a : args) : M unit :=
  try_except (main a) (fun e => print ("Error: " ++ e)).

(** The exit status of the interpreter: 0 when the program runs to its
    end, 1 when an exception reaches the top. *)
Definition exit_status {A} (r : result A) : Z :=
  match r with
  | Ok _ => 0
  | Raise _ => 1
  end.

Definition run (a : args) (w : world) : Z * world :=
  let (r, w') := script a w in (exit_status r, w').

(** ** Vocabulary of the statements *)

(** *** The dispatcher *)

(** The test [main] makes first: both modes asked for, or neither. *)
Definition usage_error (a : args) : bool :=
  (prepare a && collect a) || (negb (prepare a) && negb (collect a)).

(** The world after [s] was printed. *)
Definition say (s : string) (w : world) : world :=
  mkworld (fs w) (cwd w) (clock w) (stdout w ++ [s]) (trace w).

(** The arguments of [--collect --src s --dst d] and of [--prepare --src s]. *)
Definition collect_args (s d : string) : args :=
  mkargs false true (Some s) (Some d).

Definition prepare_args (s : string) : args :=
  mkargs true false (Some s) None.

(** The message [parent_copy] raises for the file [p] when a call in it
    failed with [cause]. *)
Definition copy_failure (p cause : string) : string :=
  "Could not copy " ++ p ++ ": " ++ cause.

(** *** Trees and paths *)

(** Two paths part ways: at some position they have different components. *)
Fixpoint diverge (p q : path) : bool :=
  match p, q with
  | x :: p', y :: q' => if (x =? y)%string then diverge p' q' else true
  | _, _ => false
  end.

Definition is_file (o : option node) : bool :=
  match o with Some (File _ _) => true | _ => false end.

Definition is_dir (o : option node) : bool :=
  match o with Some (Dir _) => true | _ => false end.

(** A path whose components can all be names of directory entries. *)
Definition valid (p : path) : Prop :=
  Forall (fun c => Path.valid_name c = true) p.

(** Every name in every directory of the tree can be a name. *)
Fixpoint wf_node (n : node) : bool :=
  match n with
  | Dir es =>
      (fix wf_entries (l : list (string * node)) : bool :=
         match l with
         | [] => true
         | (x, c) :: r => Path.valid_name x && wf_node c && wf_entries r
         end) es
  | _ => true
  end.

(** *** What the calls keep *)

(** [m] relates the world it starts in to the world it leaves by [P],
    whether it returns or raises. *)
Definition keeps (P : world -> world -> Prop) {A} (m : M A) : Prop :=
  forall w r w', m w = (r, w') -> P w w'.

(** What stays of a node while files are written and directories made:
    a file is still a file, a directory still a directory, a link is the
    same link. *)
Definition persists (o o' : option node) : Prop :=
  match o with
  | Some (File _ _) => is_file o' = true
  | Some (Dir _) => is_dir o' = true
  | Some (Link st to) => o' = Some (Link st to)
  | None => True
  end.

(** The events recorded between two worlds. *)
Definition recorded (w w' : world) (T : list event) : Prop :=
  trace w' = (trace w ++ T)%list.

(** What no call of the script undoes: the working directory and the
    output stay, the record of calls and the clock only grow, what is in
    the filesystem persists, and where a copy was recorded there is a
    file. *)
Definition extends (w w' : world) : Prop :=
  cwd w' = cwd w /\ stdout w' = stdout w /\
  (exists T, trace w' = (trace w ++ T)%list /\
             forall s d, In (ECopy s d) T -> is_file (resolve (fs w') d) = true) /\
  (clock w <= clock w')%Z /\
  forall q, persists (resolve (fs w) q) (resolve (fs w') q).

(** What [os.utime] with the times [a] and [m] can make of a node:
    a file keeps its content and mode and has its own times or [a] and
    [m]; a link is the same; a directory has the same names. *)
Definition retimed (a m : time) (o o' : option node) : Prop :=
  match o with
  | Some (File st d) =>
      o' = Some (File st d) \/ o' = Some (File (mkstat (st_mode st) a m) d)
  | Some (Link st to) => o' = Some (Link st to)
  | Some (Dir es) => exists es', o' = Some (Dir es') /\ map fst es' = map fst es
  | None => o' = None
  end.

(** What a preparation with the times [a] and [m] does to the world: only
    [os.utime] calls with these times are recorded, and every node is as
    [retimed] allows. *)
Definition touched (a m : time) (w w' : world) : Prop :=
  cwd w' = cwd w /\
  (exists T, trace w' = (trace w ++ T)%list /\
             Forall (fun e => exists p, e = EUtime p a m) T) /\
  forall q, retimed a m (resolve (fs w) q) (resolve (fs w') q).

(** *** The rounds of the walk *)

(** What one round of the walk hands to the loop body. *)
Definition visit := (string * list string * list string)%type.

(** The rounds of the walk below the subdirectories [names] of [top], in
    order, given the rounds [below] each one; [false] when the depth ran
    out, which ends the walk. *)
Fixpoint visit_each (below : string -> list visit * bool) (w : world)
    (top : string) (names : list string) : list visit * bool :=
  match names with
  | [] => ([], true)
  | name :: r =>
      let '(l1, ok1) := if islink_at w (Path.join top name) then ([], true)
                        else below (Path.join top name) in
      if ok1 then let '(l2, ok2) := visit_each below w top r in ((l1 ++ l2)%list, ok2)
      else (l1, false)
  end.

(** The rounds [os.walk] makes from [top] on a filesystem that keeps its
    shape during the walk, read off the world [w]. *)
Fixpoint visits (depth : nat) (w : world) (top : string) : list visit * bool :=
  match depth with
  | O => ([], false)
  | S depth' =>
      match listing_at w top with
      | None => ([], true)
      | Some (subdirs, files) =>
          let '(l, ok) := visit_each (visits depth' w) w top subdirs in
          ((top, subdirs, files) :: l, ok)
      end
  end.

(** The loop body on one round. *)
Definition on_visit (body : string -> list string -> list string -> M unit)
    (v : visit) : M unit :=
  let '(root, subdirs, files) := v in body root subdirs files.

(** The end of a walk over the rounds that were made. *)
Definition walk_end (ok : bool) : M unit :=
  if ok then ret tt else raise "maximum recursion depth exceeded".

(** *** Collection *)

(** The directories of [src] below [root], as [parent_copy] computes
    them. *)
Definition parent_dirs_of (w : world) (src root : string) : string :=
  fst (Path.split (Path.relpath (cwd w) src root)).

(** A file of the source tree [S] that the build used, in the world [w0]:
    a regular file with a source name whose access time is after its
    modification time. *)
Definition used (w0 : world) (S p : path) : Prop :=
  exists rel f st d,
    p = (S ++ rel ++ [f])%list /\ is_source f = true /\
    resolve (fs w0) p = Some (File st d) /\ (st_mtime st < st_atime st)%Z.

(** The destination [D] is a directory, and where the source [S] has a
    directory the destination has a directory or nothing. *)
Definition clear_way (w0 : world) (S D : path) (w : world) : Prop :=
  forall rel,
    is_dir (resolve (fs w0) (S ++ rel)%list) = true ->
    match resolve (fs w) (D ++ rel)%list with
    | None => rel <> []
    | Some (Dir _) => True
    | Some _ => False
    end.

(** What a step of a collection from [S] to [D], of the tree as it is in
    [w0], does to the world: it extends it, touches nothing off the paths
    through [D], records copies of used files only, keeps the way clear,
    and leaves the copies that are in place in place. *)
Definition collecting (w0 : world) (S D : path) (w w' : world) : Prop :=
  extends w w' /\
  (forall q, diverge D q = true -> resolve (fs w') q = resolve (fs w) q) /\
  (exists T, recorded w w' T /\ forall s d, In (ECopy s d) T -> used w0 S s) /\
  (clear_way w0 S D w -> clear_way w0 S D w') /\
  (forall r st d,
     resolve (fs w0) (S ++ r)%list = Some (File st d) ->
     resolve (fs w) (D ++ r)%list = Some (File st d) ->
     resolve (fs w') (D ++ r)%list = Some (File st d)).

(** A directory string at or below the source root [S]. *)
Definition inside_src (w0 : world) (S : path) (root : string) : Prop :=
  root <> "" /\
  exists rel, Path.abspath (cwd w0) root = (S ++ rel)%list /\ valid rel.

(** The file at [r] below the source root has been copied: a copy of it
    is on record, and it is in place below the destination when the way
    was clear. *)
Definition collected (w0 : world) (S D r : path) (w : world) : Prop :=
  (exists T pd, recorded w0 w T /\ In (ECopy (S ++ r)%list pd) T) /\
  (clear_way w0 S D w0 ->
   resolve (fs w) (D ++ r)%list = resolve (fs w0) (S ++ r)%list).

(** The filesystem [F] holds the source tree [S] as it is in [w0], and a
    copy of each of its used files at the same path below [D]. *)
Definition holds_copies (w0 : world) (S D : path) (F : node) : Prop :=
  (forall q, resolve F (S ++ q)%list = resolve (fs w0) (S ++ q)%list) /\
  (forall rel f st d,
     resolve (fs w0) (S ++ rel ++ [f])%list = Some (File st d) ->
     is_source f = true -> (st_mtime st < st_atime st)%Z ->
     resolve F (D ++ rel ++ [f])%list = Some (File st d)).

(** The filesystem and the working directory are still [F] and [c]. *)
Definition still (F : node) (c : path) (w w' : world) : Prop :=
  fs w = F /\ cwd w = c -> fs w' = F /\ cwd w' = c.

(** *** What a collection leaves alone *)

(** Off the paths through [D] the filesystem of [w] is that of [w0], and
    the working directory is the same. *)
Definition outside (w0 : world) (D : path) (w : world) : Prop :=
  cwd w = cwd w0 /\
  forall q, diverge D q = true -> resolve (fs w) q = resolve (fs w0) q.

(** A step that began off [D] as in [w0] ends so. *)
Definition stays_outside (w0 : world) (D : path) (w w' : world) : Prop :=
  outside w0 D w -> outside w0 D w'.

(** *** The build between a preparation and a collection *)

(** What a build does to the tree, as far as the script can tell: it reads
    files, one after the other. *)
Definition build (reads : list string) : M unit :=
  for_each reads (fun p => read_file p ;;; ret tt).



(** *** What a preparation leaves alone *)



(** *** Sample machines *)

(** A regular file with mode 0644. *)
Definition regular (atime mtime : time) (data : string) : node :=
  File (mkstat 420 atime mtime) data.

(** [/s] is a source tree after a build, [/out] an empty directory. *)
Definition sample_fs : node :=
  Dir [("s", Dir [("main.c", regular 10 5 "M");
                  ("README.md", regular 10 5 "R");
                  ("unused.h", regular 5 5 "U");
                  ("sub", Dir [("b.c", regular 9 1 "B");
                               ("ro.h", File (mkstat 292 9 1) "RO")]);
                  ("ln.c", Link (mkstat 511 9 1) ToFile)]);
       ("out", Dir [])].

Definition sample : world := mkworld sample_fs [] 100 [] [].

(** The sample machine with a directory in the place where [sub/b.c]
    would be copied. *)
Definition blocked : world :=
  mkworld (Dir [("s", Dir [("main.c", regular 10 5 "M");
                           ("sub", Dir [("b.c", regular 9 1 "B")]);
                           ("t", Dir [("z.h", regular 8 2 "Z")])]);
                ("out", Dir [("sub", Dir [("b.c", Dir [])])])])
          [] 100 [] [].

(** A collection from a one-file tree into a directory that is not there. *)
Definition lone : world :=
  mkworld (Dir [("s", Dir [("main.c", regular 10 5 "M")])]) [] 100 [] [].



(** * Properties *)

Open Scope list_scope.

(** ** The path functions on examples *)

Example split_slash_ex : Path.split_slash "/a//b.c" = [""; "a"; ""; "b.c"].
Proof. reflexivity. Qed.

Example abspath_ex :
  Path.abspath ["home"; "u"] "src/../lib/./x.c" = ["home"; "u"; "lib"; "x.c"].
Proof. reflexivity. Qed.

Example split_ex :
  Path.split "a/b/c.c" = ("a/b", "c.c") /\ Path.split "c.c" = ("", "c.c")
  /\ Path.split "/c.c" = ("/", "c.c").
Proof. repeat split. Qed.

Example relpath_ex : Path.relpath [] "/s/a/b/c.c" "/s" = "a/b/c.c".
Proof. reflexivity. Qed.

Example endswith_ex :
  Path.endswith "main.c" ".c" = true /\ Path.endswith "c" ".c" = false.
Proof. split; reflexivity. Qed.

(** ** The dispatcher *)

(** C5 (as the code has it).  With both of [--prepare] and [--collect], or
    with neither, the script prints the line
    [Error: You must use either --collect or --prepare], without a final
    period, and changes nothing else: the filesystem and the record of
    calls are as before. *)
Theorem usage_error_reported (a : args) (w : world) (H : usage_error a = true) :
  run a w = (0%Z, say "Error: You must use either --collect or --prepare" w).
Proof.
  unfold run, script, try_except, main. unfold usage_error in H. rewrite H.
  reflexivity.
Qed.

Lemma usage_error_reported_witness :
  usage_error (mkargs true true (Some "/s") None) = true /\
  run (mkargs true true (Some "/s") None) sample
  = (0%Z, say "Error: You must use either --collect or --prepare" sample).
Proof.
  split; [reflexivity | apply usage_error_reported; reflexivity].
Defined.

(** C5, counterexample.  The line printed for both flags set is not the one
    the specification quotes, which ends in a period. *)
Lemma usage_error_line_has_no_period :
  stdout (snd (run (mkargs true true (Some "/s") None) sample))
  <> ["Error: You must use either --collect or --prepare."].
Proof. vm_compute. discriminate. Qed.

(** C8.  In collect mode, with [--src] and [--dst] given and nothing at the
    source path, the script prints [Error: Directory <src> does not exist]
    and leaves the filesystem and the record of calls untouched: the test
    comes before the walk. *)
Theorem missing_source_reported (w : world) (s d : string)
    (Hs : s <> "") (Hd : d <> "") (H : exists_at w s = false) :
  run (mkargs false true (Some s) (Some d)) w
  = (0%Z, say ("Error: Directory " ++ s ++ " does not exist")%string w).
Proof.
  unfold run, script, try_except, main; simpl.
  apply String.eqb_neq in Hs, Hd. rewrite Hs, Hd. simpl.
  unfold bind, os_path_exists. rewrite H. reflexivity.
Qed.

Lemma missing_source_reported_witness :
  run (mkargs false true (Some "missing_dir") (Some "out")) sample
  = (0%Z, say "Error: Directory missing_dir does not exist" sample).
Proof.
  apply (missing_source_reported sample "missing_dir" "out");
    [discriminate | discriminate | reflexivity].
Defined.

(** ** Directory entries *)

Lemma assoc_set_entry_same x v es : assoc x (set_entry x v es) = Some v.
Proof.
  induction es as [|[y c] r IH]; simpl.
  - now rewrite String.eqb_refl.
  - destruct (y =? x) eqn:E; simpl.
    + now rewrite String.eqb_refl.
    + now rewrite E.
Qed.

Lemma assoc_set_entry_other x y v es :
  y <> x -> assoc y (set_entry x v es) = assoc y es.
Proof.
  intros Hne. induction es as [|[z c] r IH]; simpl.
  - destruct (x =? y) eqn:E; [apply String.eqb_eq in E; congruence | reflexivity].
  - destruct (z =? x) eqn:E; simpl.
    + apply String.eqb_eq in E; subst z.
      destruct (x =? y) eqn:E'; [apply String.eqb_eq in E'; congruence | reflexivity].
    + now rewrite IH.
Qed.

Lemma names_set_entry x v es c :
  assoc x es = Some c -> map fst (set_entry x v es) = map fst es.
Proof.
  induction es as [|[y d] r IH]; simpl; [discriminate|].
  destruct (y =? x) eqn:E; simpl; intros H.
  - apply String.eqb_eq in E. now subst.
  - now rewrite IH.
Qed.

Lemma set_entry_same x c es : assoc x es = Some c -> set_entry x c es = es.
Proof.
  induction es as [|[y d] r IH]; simpl; [discriminate|].
  destruct (y =? x) eqn:E; intros H.
  - apply String.eqb_eq in E. congruence.
  - now rewrite IH.
Qed.

Lemma set_entry_twice x u v es :
  set_entry x v (set_entry x u es) = set_entry x v es.
Proof.
  induction es as [|[y d] r IH]; simpl.
  - now rewrite String.eqb_refl.
  - destruct (y =? x) eqn:E; simpl.
    + now rewrite String.eqb_refl.
    + now rewrite E, IH.
Qed.

Lemma assoc_in_names x es c : assoc x es = Some c -> In x (map fst es).
Proof.
  induction es as [|[y d] r IH]; simpl; [discriminate|].
  destruct (y =? x) eqn:E; intros H.
  - apply String.eqb_eq in E. now left.
  - right. now apply IH.
Qed.

Lemma in_names_assoc x es : In x (map fst es) -> exists c, assoc x es = Some c.
Proof.
  induction es as [|[y d] r IH]; simpl; [tauto|].
  intros [H|H]; destruct (y =? x) eqn:E; eauto.
  subst. now rewrite String.eqb_refl in E.
Qed.

(** ** Paths in the tree *)

Lemma diverge_sym p q : diverge p q = diverge q p.
Proof.
  revert q. induction p as [|x p IH]; destruct q as [|y q]; simpl; auto.
  rewrite (String.eqb_sym y x). destruct (x =? y); auto.
Qed.

Lemma diverge_app p q a b : diverge p q = true -> diverge (p ++ a) (q ++ b) = true.
Proof.
  revert q. induction p as [|x p IH]; destruct q as [|y q]; simpl; try discriminate.
  destruct (x =? y); auto.
Qed.

Lemma diverge_irrefl p a : diverge p (p ++ a) = false.
Proof.
  induction p as [|x p IH]; simpl; [reflexivity|].
  now rewrite String.eqb_refl.
Qed.

Lemma resolve_app n p q :
  resolve n (p ++ q) = match resolve n p with
                       | Some m => resolve m q
                       | None => None
                       end.
Proof.
  revert n. induction p as [|x p IH]; intros n; simpl; [reflexivity|].
  destruct n; try reflexivity.
  destruct (assoc x entries); [apply IH | reflexivity].
Qed.

Lemma resolve_put_same n p v n' : put n p v = Some n' -> resolve n' p = Some v.
Proof.
  revert n n'. induction p as [|x r IH]; intros n n'; simpl.
  - congruence.
  - destruct n; try discriminate.
    destruct (assoc x entries) as [c|] eqn:E.
    + destruct (put c r v) as [c'|] eqn:P; [|discriminate].
      intros [= <-]. simpl. rewrite assoc_set_entry_same. eauto.
    + destruct r; [|discriminate]. intros [= <-]. simpl.
      now rewrite assoc_set_entry_same.
Qed.

Lemma resolve_put_diverge n p v n' q :
  put n p v = Some n' -> diverge p q = true -> resolve n' q = resolve n q.
Proof.
  revert n n' q. induction p as [|x r IH]; intros n n' q; simpl; [discriminate|].
  destruct q as [|y q]; [discriminate|].
  destruct n; try discriminate.
  destruct (assoc x entries) as [c|] eqn:E.
  - destruct (put c r v) as [c'|] eqn:P; [|discriminate].
    intros [= <-]. simpl. destruct (x =? y) eqn:Exy.
    + apply String.eqb_eq in Exy; subst y. rewrite assoc_set_entry_same, E. eauto.
    + intros _. apply String.eqb_neq in Exy.
      rewrite assoc_set_entry_other by congruence. reflexivity.
  - destruct r; [|discriminate]. intros [= <-]. simpl.
    destruct (x =? y) eqn:Exy; [discriminate|]. intros _.
    apply String.eqb_neq in Exy.
    rewrite assoc_set_entry_other by congruence. reflexivity.
Qed.

Lemma put_same n p v : resolve n p = Some v -> put n p v = Some n.
Proof.
  revert n. induction p as [|x r IH]; intros n; simpl.
  - congruence.
  - destruct n; try discriminate.
    destruct (assoc x entries) as [c|] eqn:E; [|discriminate].
    intros H. rewrite (IH _ H). now rewrite (set_entry_same _ _ _ E).
Qed.

Lemma put_put n p u v n1 : put n p u = Some n1 -> put n1 p v = put n p v.
Proof.
  revert n n1. induction p as [|x r IH]; intros n n1; simpl.
  - reflexivity.
  - destruct n; try discriminate.
    destruct (assoc x entries) as [c|] eqn:E.
    + destruct (put c r u) as [c'|] eqn:P; [|discriminate].
      intros [= <-]. simpl. rewrite assoc_set_entry_same, (IH _ _ P).
      destruct (put c r v); [|reflexivity]. now rewrite set_entry_twice.
    + destruct r; [|discriminate]. intros [= <-]. simpl.
      now rewrite assoc_set_entry_same, set_entry_twice.
Qed.

Lemma put_defined n p u v : resolve n p = Some u -> exists n', put n p v = Some n'.
Proof.
  revert n. induction p as [|x r IH]; intros n; simpl.
  - eauto.
  - destruct n; try discriminate.
    destruct (assoc x entries) as [c|] eqn:E; [|discriminate].
    intros H. destruct (IH _ H) as [c' ->]. eauto.
Qed.

Lemma path_cases (p q : path) :
  p = q \/ diverge p q = true
  \/ (exists y r, q = p ++ y :: r) \/ (exists y r, p = q ++ y :: r).
Proof.
  revert q. induction p as [|x p IH]; intros [|y q]; simpl.
  - now left.
  - right; right; left. now exists y, q.
  - right; right; right. now exists x, p.
  - destruct (x =? y) eqn:E; [|now right; left].
    apply String.eqb_eq in E; subst y.
    destruct (IH q) as [->|[H|[(z & r & ->)|(z & r & ->)]]].
    + now left.
    + now right; left.
    + right; right; left. now exists z, r.
    + right; right; right. now exists z, r.
Qed.

Lemma resolve_below p y r n :
  is_dir (resolve n p) = false -> resolve n (p ++ y :: r) = None.
Proof.
  intros H. rewrite resolve_app. destruct (resolve n p) as [[| |]|]; simpl in *;
    try reflexivity; discriminate.
Qed.

Lemma put_prefix_dir n q y r v n' :
  put n (q ++ y :: r) v = Some n' ->
  is_dir (resolve n q) = true /\ is_dir (resolve n' q) = true.
Proof.
  revert n n'. induction q as [|x q IH]; intros n n'; simpl.
  - destruct n; try discriminate.
    destruct (assoc y entries).
    + destruct (put n r v); [|discriminate]. intros [= <-]. auto.
    + destruct r; [|discriminate]. intros [= <-]. auto.
  - destruct n; try discriminate.
    destruct (assoc x entries) as [c|] eqn:E.
    + destruct (put c (q ++ y :: r) v) as [c'|] eqn:P; [|discriminate].
      intros [= <-]. simpl. rewrite assoc_set_entry_same. eauto.
    + destruct (q ++ y :: r) eqn:Q; [destruct q; discriminate | discriminate].
Qed.

(** Writing a file where there was a file or nothing leaves every other
    file and link as it was, and every directory a directory. *)
Lemma put_file_frame n p st d n' q :
  put n p (File st d) = Some n' -> is_dir (resolve n p) = false ->
  q <> p -> is_dir (resolve n q) = false -> resolve n' q = resolve n q.
Proof.
  intros P Hp Hq Hd.
  destruct (path_cases p q) as [->|[H|[(y & r & ->)|(y & r & ->)]]].
  - congruence.
  - eapply resolve_put_diverge; eauto.
  - rewrite (resolve_below _ _ _ _ Hp).
    apply resolve_below. now rewrite (resolve_put_same _ _ _ _ P).
  - apply put_prefix_dir in P. destruct P. congruence.
Qed.

Lemma put_file_dir n p st d n' q :
  put n p (File st d) = Some n' -> is_dir (resolve n p) = false ->
  is_dir (resolve n q) = true -> is_dir (resolve n' q) = true.
Proof.
  intros P Hp Hd.
  destruct (path_cases p q) as [->|[H|[(y & r & ->)|(y & r & ->)]]].
  - congruence.
  - now rewrite (resolve_put_diverge _ _ _ _ _ P H).
  - rewrite (resolve_below _ _ _ _ Hp) in Hd. discriminate.
  - now apply put_prefix_dir in P.
Qed.

Lemma put_file_persists n p st d n' q :
  put n p (File st d) = Some n' ->
  match resolve n p with Some (File _ _) | None => True | _ => False end ->
  persists (resolve n q) (resolve n' q).
Proof.
  intros P Hp.
  assert (Hd : is_dir (resolve n p) = false)
    by (destruct (resolve n p) as [[| |]|]; simpl in *; tauto).
  destruct (list_eq_dec string_dec q p) as [->|Hne].
  - rewrite (resolve_put_same _ _ _ _ P).
    destruct (resolve n p) as [[| |]|]; simpl in *; tauto.
  - destruct (is_dir (resolve n q)) eqn:Hq.
    + pose proof (put_file_dir _ _ _ _ _ _ P Hd Hq).
      destruct (resolve n q) as [[| |]|]; simpl in *; try discriminate; auto.
    + rewrite (put_file_frame _ _ _ _ _ _ P Hd Hne Hq).
      destruct (resolve n q) as [[| |]|]; simpl in *; auto; discriminate.
Qed.

(** ** Making directories *)

Lemma resolve_new_dirs a b : resolve (new_dirs (a ++ b)) a = Some (new_dirs b).
Proof.
  induction a as [|x a IH]; simpl; [reflexivity|].
  now rewrite String.eqb_refl.
Qed.

Lemma new_dirs_is_dir p : exists es, new_dirs p = Dir es.
Proof. destruct p; simpl; eauto. Qed.

Lemma resolve_in_new_dirs p q v :
  resolve (new_dirs p) q = Some v -> exists es, v = Dir es.
Proof.
  revert q. induction p as [|x p IH]; intros [|y q]; simpl.
  - intros [= <-]; eauto.
  - discriminate.
  - intros [= <-]; eauto.
  - destruct (x =? y); [apply IH | discriminate].
Qed.

Lemma resolve_new_dirs_diverge p q :
  diverge p q = true -> resolve (new_dirs p) q = None.
Proof.
  revert q. induction p as [|x p IH]; intros [|y q]; simpl; try discriminate.
  destruct (x =? y); auto.
Qed.

Lemma makedirs_diverge n p n' q :
  makedirs_node n p = inr n' -> diverge p q = true -> resolve n' q = resolve n q.
Proof.
  revert n n' q. induction p as [|x r IH]; intros n n' q; simpl; [discriminate|].
  destruct q as [|y q]; [discriminate|].
  destruct n; try discriminate.
  destruct (assoc x entries) as [c|] eqn:E.
  - destruct (makedirs_node c r) as [e|c'] eqn:P; [discriminate|].
    intros [= <-]. simpl. destruct (x =? y) eqn:Exy.
    + apply String.eqb_eq in Exy; subst y. rewrite assoc_set_entry_same, E. eauto.
    + intros _. apply String.eqb_neq in Exy.
      rewrite assoc_set_entry_other by congruence. reflexivity.
  - intros [= <-]. simpl. destruct (x =? y) eqn:Exy.
    + apply String.eqb_eq in Exy; subst y. rewrite assoc_set_entry_same, E.
      apply resolve_new_dirs_diverge.
    + intros _. apply String.eqb_neq in Exy.
      rewrite assoc_set_entry_other by congruence. reflexivity.
Qed.

(** [makedirs] only adds: what was there is still there, a directory
    possibly with more entries. *)
Lemma makedirs_grows n p n' q v :
  makedirs_node n p = inr n' -> resolve n q = Some v ->
  match v with
  | Dir _ => is_dir (resolve n' q) = true
  | _ => resolve n' q = Some v
  end.
Proof.
  revert n n' q v. induction p as [|x r IH]; intros n n' q v; simpl; [discriminate|].
  destruct n; try discriminate.
  destruct (assoc x entries) as [c|] eqn:E.
  - destruct (makedirs_node c r) as [e|c'] eqn:P; [discriminate|].
    intros [= <-]. destruct q as [|y q]; simpl.
    + intros [= <-]. reflexivity.
    + destruct (string_dec y x) as [->|Hne].
      * rewrite assoc_set_entry_same, E. intros H. exact (IH _ _ _ _ P H).
      * rewrite assoc_set_entry_other by assumption.
        destruct (assoc y entries); [|discriminate].
        intros ->. destruct v; reflexivity.
  - intros [= <-]. destruct q as [|y q]; simpl.
    + intros [= <-]. reflexivity.
    + destruct (string_dec y x) as [->|Hne].
      * now rewrite E.
      * rewrite assoc_set_entry_other by assumption.
        destruct (assoc y entries); [|discriminate].
        intros ->. destruct v; reflexivity.
Qed.

Lemma makedirs_made n p n' :
  makedirs_node n p = inr n' -> is_dir (resolve n' p) = true.
Proof.
  revert n n'. induction p as [|x r IH]; intros n n'; simpl; [discriminate|].
  destruct n; try discriminate.
  destruct (assoc x entries) as [c|] eqn:E.
  - destruct (makedirs_node c r) as [e|c'] eqn:P; [discriminate|].
    intros [= <-]. simpl. rewrite assoc_set_entry_same. eauto.
  - intros [= <-]. simpl. rewrite assoc_set_entry_same.
    pose proof (resolve_new_dirs r []) as H. rewrite app_nil_r in H.
    rewrite H. reflexivity.
Qed.

Lemma makedirs_persists n p n' q :
  makedirs_node n p = inr n' -> persists (resolve n q) (resolve n' q).
Proof.
  intros H. destruct (resolve n q) as [v|] eqn:E; [|exact I].
  pose proof (makedirs_grows _ _ _ _ _ H E) as G.
  destruct v; simpl; try rewrite G; auto.
Qed.

(** ** Running computations *)

Lemma bind_inv {A B} (m : M A) (k : A -> M B) w r w' :
  bind m k w = (r, w') ->
  (exists a w1, m w = (Ok a, w1) /\ k a w1 = (r, w'))
  \/ (exists e, m w = (Raise e, w') /\ r = Raise e).
Proof.
  unfold bind. destruct (m w) as [[a|e] w1]; intros H.
  - left. eauto.
  - right. exists e. now inversion H.
Qed.

Lemma try_inv {A} (m : M A) (h : string -> M A) w r w' :
  try_except m h w = (r, w') ->
  (exists a, m w = (Ok a, w') /\ r = Ok a)
  \/ (exists e w1, m w = (Raise e, w1) /\ h e w1 = (r, w')).
Proof.
  unfold try_except. destruct (m w) as [[a|e] w1]; intros H.
  - left. exists a. now inversion H.
  - right. eauto.
Qed.

Lemma reraise_id {A} (m : M A) w : try_except m (fun e => raise e) w = m w.
Proof. unfold try_except, raise. now destruct (m w) as [[a|e] w1]. Qed.

Section Keeps.
Variable P : world -> world -> Prop.
Hypothesis P_refl : forall w, P w w.
Hypothesis P_trans : forall w1 w2 w3, P w1 w2 -> P w2 w3 -> P w1 w3.

Lemma keeps_ret {A} (a : A) : keeps P (ret a).
Proof. intros w r w' [= _ <-]. apply P_refl. Qed.

Lemma keeps_raise {A} e : keeps P (@raise A e).
Proof. intros w r w' [= _ <-]. apply P_refl. Qed.

Lemma keeps_observe {A} (f : world -> A) : keeps P (fun w => (Ok (f w), w)).
Proof. intros w r w' [= _ <-]. apply P_refl. Qed.

Lemma keeps_bind {A B} (m : M A) (k : A -> M B) :
  keeps P m -> (forall a, keeps P (k a)) -> keeps P (bind m k).
Proof.
  intros Hm Hk w r w' H.
  destruct (bind_inv _ _ _ _ _ H) as [(a & w1 & H1 & H2)|(e & H1 & _)].
  - eapply P_trans; [eapply Hm | eapply Hk]; eauto.
  - eapply Hm; eauto.
Qed.

Lemma keeps_try {A} (m : M A) h :
  keeps P m -> (forall e, keeps P (h e)) -> keeps P (try_except m h).
Proof.
  intros Hm Hh w r w' H.
  destruct (try_inv _ _ _ _ _ H) as [(a & H1 & _)|(e & w1 & H1 & H2)].
  - eapply Hm; eauto.
  - eapply P_trans; [eapply Hm | eapply Hh]; eauto.
Qed.

Lemma keeps_for_each {A} (l : list A) f :
  (forall x, In x l -> keeps P (f x)) -> keeps P (for_each l f).
Proof.
  induction l as [|x l IH]; intros Hf; simpl.
  - apply keeps_ret.
  - apply keeps_bind; [apply Hf; now left|].
    intros _. apply IH. intros y Hy. apply Hf. now right.
Qed.

Lemma keeps_walk_listing top : keeps P (walk_listing top).
Proof. apply (keeps_observe (fun w => listing_at w top)). Qed.

Lemma keeps_walk depth top body :
  (forall root subdirs files, keeps P (body root subdirs files)) ->
  keeps P (os_walk depth top body).
Proof.
  intros Hb. revert top. induction depth as [|d IH]; intros top; simpl.
  - apply keeps_raise.
  - apply keeps_bind; [apply keeps_walk_listing|].
    intros [[subdirs files]|]; [|apply keeps_ret].
    apply keeps_bind; [apply Hb|]. intros _.
    apply keeps_for_each. intros name _.
    apply keeps_bind; [apply (keeps_observe (fun w => islink_at w _))|].
    intros [|]; [apply keeps_ret | apply IH].
Qed.
End Keeps.

Lemma persists_refl o : persists o o.
Proof. destruct o as [[| |]|]; simpl; auto. Qed.

Lemma persists_trans o1 o2 o3 : persists o1 o2 -> persists o2 o3 -> persists o1 o3.
Proof.
  destruct o1 as [[| |]|]; simpl; auto.
  - destruct o2 as [[| |]|]; simpl; auto; discriminate.
  - intros ->. simpl. auto.
  - destruct o2 as [[| |]|]; simpl; auto; discriminate.
Qed.

Lemma extends_refl w : extends w w.
Proof.
  repeat split; auto.
  - exists []. rewrite app_nil_r. split; [reflexivity | intros s d []].
  - lia.
  - intros q. apply persists_refl.
Qed.

Lemma extends_trans w1 w2 w3 : extends w1 w2 -> extends w2 w3 -> extends w1 w3.
Proof.
  intros (C1 & O1 & (T1 & E1 & I1) & K1 & F1) (C2 & O2 & (T2 & E2 & I2) & K2 & F2).
  repeat split; try congruence.
  - exists (T1 ++ T2). split; [now rewrite E2, E1, app_assoc|].
    intros s d H. apply in_app_or in H. destruct H as [H|H]; [|eauto].
    specialize (I1 _ _ H). specialize (F2 d).
    destruct (resolve (fs w2) d) as [[| |]|]; try discriminate. exact F2.
  - lia.
  - intros q. eapply persists_trans; eauto.
Qed.

(** ** No call undoes what was done *)

Lemma extends_store n w :
  (forall q, persists (resolve (fs w) q) (resolve n q)) ->
  extends w (tick (set_fs n w)).
Proof.
  intros H. repeat split; simpl; auto; try lia.
  exists []. rewrite app_nil_r. split; [reflexivity | intros s d []].
Qed.

Lemma extends_tick w : extends w (tick w).
Proof.
  repeat split; simpl; auto; try lia.
  - exists []. rewrite app_nil_r. split; [reflexivity | intros s d []].
  - intros q. apply persists_refl.
Qed.

Lemma extends_log e w :
  (forall s d, e = ECopy s d -> is_file (resolve (fs w) d) = true) ->
  extends w (log e w).
Proof.
  intros H. repeat split; simpl; auto; try lia.
  - exists [e]. split; [reflexivity|]. intros s d [->|[]]. eauto.
  - intros q. apply persists_refl.
Qed.

Create HintDb ext.
#[local] Hint Resolve extends_refl extends_tick : ext.

Lemma update_file_extends s f :
  (forall st d, exists st' d', f st d = File st' d') ->
  keeps extends (update_file s f).
Proof.
  intros Hf w r w'. unfold update_file, node_at.
  destruct (resolve (fs w) (Path.abspath (cwd w) s)) as [[st d| |]|] eqn:E;
    try (intros [= _ <-]; auto with ext).
  destruct (put _ _ _) as [n|] eqn:P; intros [= _ <-]; auto with ext.
  apply extends_store. intros q.
  destruct (Hf st d) as (st' & d' & Hfd). rewrite Hfd in P.
  eapply put_file_persists; eauto. now rewrite E.
Qed.

Lemma os_utime_extends s a m : keeps extends (os_utime s a m).
Proof.
  apply keeps_bind; [apply extends_trans | |].
  - apply update_file_extends. eauto.
  - intros _ w r w' [= _ <-]. apply extends_log. discriminate.
Qed.

Lemma os_chmod_extends s mode : keeps extends (os_chmod s mode).
Proof. apply update_file_extends. eauto. Qed.

Lemma os_makedirs_extends s mode : keeps extends (os_makedirs s mode).
Proof.
  intros w r w'. unfold os_makedirs.
  destruct (makedirs_node _ _) as [e|n] eqn:E; intros [= _ <-]; auto with ext.
  eapply extends_trans; [|apply extends_log; discriminate].
  apply extends_store. intros q. eapply makedirs_persists; eauto.
Qed.

Lemma os_stat_extends s : keeps extends (os_stat s).
Proof.
  intros w r w'. unfold os_stat.
  destruct (node_at w s) as [[| |]|]; intros [= _ <-]; auto with ext.
Qed.

Lemma read_file_extends s : keeps extends (read_file s).
Proof.
  intros w r w'. unfold read_file, node_at.
  destruct (resolve (fs w) (Path.abspath (cwd w) s)) as [[st d| |]|] eqn:E;
    try (intros [= _ <-]; auto with ext).
  destruct (owner_can_read st); [|intros [= _ <-]; auto with ext].
  destruct (st_atime st <=? st_mtime st)%Z; [|intros [= _ <-]; auto with ext].
  destruct (put _ _ _) as [n|] eqn:P; intros [= _ <-]; auto with ext.
  apply extends_store. intros q.
  eapply put_file_persists; eauto. now rewrite E.
Qed.

Lemma write_file_extends s d : keeps extends (write_file s d).
Proof.
  intros w r w'. unfold write_file, node_at.
  destruct (resolve (fs w) (Path.abspath (cwd w) s)) as [[st d0| |]|] eqn:E;
    try (intros [= _ <-]; auto with ext).
  - destruct (owner_can_write st); [|intros [= _ <-]; auto with ext].
    destruct (put _ _ _) as [n|] eqn:P; intros [= _ <-]; auto with ext.
    apply extends_store. intros q.
    eapply put_file_persists; eauto. now rewrite E.
  - destruct (put _ _ _) as [n|] eqn:P; intros [= _ <-]; auto with ext.
    apply extends_store. intros q.
    eapply put_file_persists; eauto. now rewrite E.
Qed.

Ltac keeps_step :=
  first
    [ apply keeps_ret; auto with ext
    | apply keeps_raise; auto with ext
    | apply (keeps_observe extends extends_refl)
    | apply os_utime_extends | apply os_chmod_extends | apply os_makedirs_extends
    | apply os_stat_extends | apply read_file_extends | apply write_file_extends
    | apply keeps_walk; [auto with ext | apply extends_trans | intros ? ? ?]
    | apply keeps_bind; [apply extends_trans | | intros ?]
    | apply keeps_try; [apply extends_trans | | intros ?]
    | apply keeps_for_each; [auto with ext | apply extends_trans | intros ? ?]
    | match goal with |- keeps _ (if ?b then _ else _) => destruct b end
    | match goal with |- keeps _ (let x := _ in _) => cbv zeta end ].

Lemma update_file_inv s f w r w' :
  update_file s f w = (r, w') ->
  (exists st d n, node_at w s = Some (File st d) /\
     put (fs w) (Path.abspath (cwd w) s) (f st d) = Some n /\
     r = Ok tt /\ w' = tick (set_fs n w))
  \/ (r = Raise (oserror ENOENT s) /\ w' = w).
Proof.
  unfold update_file.
  destruct (node_at w s) as [[st d| |]|] eqn:E; try (intros [= <- <-]; now right).
  destruct (put _ _ _) as [n|] eqn:P; intros [= <- <-]; [left | now right].
  exists st, d, n. auto.
Qed.

Lemma update_file_stored s f w w' :
  update_file s f w = (Ok tt, w') ->
  exists st d, node_at w s = Some (File st d) /\ node_at w' s = Some (f st d).
Proof.
  intros H. apply update_file_inv in H.
  destruct H as [(st & d & n & E & P & _ & ->)|[[=] _]].
  exists st, d. split; [assumption|].
  unfold node_at; simpl. eapply resolve_put_same; eauto.
Qed.

Lemma shutil_copystat_file src dst w w' :
  shutil_copystat src dst w = (Ok tt, w') -> is_file (node_at w' dst) = true.
Proof.
  unfold shutil_copystat. intros H.
  apply bind_inv in H. destruct H as [(st & w1 & _ & H)|(e & _ & [=])].
  apply bind_inv in H. destruct H as [(_ & w2 & _ & H)|(e & _ & [=])].
  apply update_file_stored in H. destruct H as (st' & d & _ & ->). reflexivity.
Qed.

Lemma shutil_copystat_extends src dst : keeps extends (shutil_copystat src dst).
Proof. unfold shutil_copystat. repeat keeps_step. Qed.

Lemma shutil_copyfile_extends src dst : keeps extends (shutil_copyfile src dst).
Proof.
  unfold shutil_copyfile, get. repeat keeps_step.
Qed.

Lemma shutil_copy2_extends src dst : keeps extends (shutil_copy2 src dst).
Proof.
  unfold shutil_copy2, os_path_isdir.
  apply keeps_bind; [apply extends_trans | apply (keeps_observe _ extends_refl) |].
  intros b. cbv zeta.
  apply keeps_bind; [apply extends_trans | apply shutil_copyfile_extends |].
  intros _ w r w' H.
  apply bind_inv in H. destruct H as [([] & w1 & H1 & H2)|(e & H1 & _)].
  - eapply extends_trans; [eapply shutil_copystat_extends; eauto|].
    injection H2 as _ <-. apply extends_log. intros s d [= _ <-].
    apply shutil_copystat_file in H1. exact H1.
  - eapply shutil_copystat_extends; eauto.
Qed.

Lemma parent_copy_extends src dst root : keeps extends (parent_copy src dst root).
Proof.
  unfold parent_copy, os_path_relpath, os_path_exists.
  repeat first [apply shutil_copy2_extends | keeps_step].
Qed.

Lemma collect_file_extends src dst root f :
  keeps extends (collect_file src dst root f).
Proof.
  unfold collect_file, os_path_islink, os_path_getatime, os_path_getmtime.
  repeat first [apply parent_copy_extends | keeps_step].
Qed.

Lemma collect_tree_extends src dst : keeps extends (collect_tree src dst).
Proof.
  unfold collect_tree, os_path_abspath.
  repeat first [apply collect_file_extends | keeps_step].
Qed.

Lemma prepare_tree_extends src : keeps extends (prepare_tree src).
Proof.
  unfold prepare_tree, time_time.
  repeat first [progress unfold prepare_file, os_path_islink | keeps_step].
Qed.

Lemma main_extends a : keeps extends (main a).
Proof.
  unfold main, os_path_exists.
  repeat first [apply prepare_tree_extends | apply collect_tree_extends | keeps_step].
Qed.

(** ** The top-level handler *)

(** C9 (as the code has it).  When [main] raises, the handler prints the
    message after [Error: ] on standard output; when it returns, nothing
    was printed.  In both cases the script then runs to its end and the
    exit status is 0. *)
Theorem script_outcome (a : args) (w : world) :
  match main a w with
  | (Ok _, w1) => run a w = (0%Z, w1) /\ stdout w1 = stdout w
  | (Raise e, w1) => run a w = (0%Z, say ("Error: " ++ e)%string w1)
  end.
Proof.
  unfold run, script, try_except.
  destruct (main a w) as [[[]|e] w1] eqn:E; [|reflexivity].
  split; [reflexivity|]. apply main_extends in E. apply E.
Qed.

(** C9, counterexample.  A run in which [main] raises ends with exit
    status 0, the status of a run that succeeded. *)
Lemma failure_exits_with_status_0 :
  main (mkargs false false None None) sample
  = (Raise "You must use either --collect or --prepare", sample)
  /\ fst (run (mkargs false false None None) sample) = 0%Z
  /\ fst (run (prepare_args "/s") sample) = 0%Z
  /\ stdout (snd (run (prepare_args "/s") sample)) = [].
Proof. vm_compute. auto. Qed.

(** ** Failures of the collection *)

Lemma for_each_raise {A} (l : list A) f w e w' :
  for_each l f w = (Raise e, w') ->
  exists l1 x l2 w1,
    l = l1 ++ x :: l2 /\ for_each l1 f w = (Ok tt, w1) /\ f x w1 = (Raise e, w').
Proof.
  revert w. induction l as [|x l IH]; intros w; simpl.
  - discriminate.
  - intros H. apply bind_inv in H.
    destruct H as [([] & w1 & H1 & H2)|(e' & H1 & [= ->])].
    + destruct (IH _ H2) as (l1 & y & l2 & w2 & -> & F & Hy).
      exists (x :: l1), y, l2, w2. repeat split; auto.
      simpl. unfold bind. now rewrite H1.
    + exists [], x, l, w. auto.
Qed.

(** The first failure ends the loop: what comes after the entry that
    failed is not run. *)
Lemma for_each_abort {A} (l1 l2 : list A) x f w w1 e w' :
  for_each l1 f w = (Ok tt, w1) -> f x w1 = (Raise e, w') ->
  for_each (l1 ++ x :: l2) f w = (Raise e, w').
Proof.
  revert w. induction l1 as [|y l1 IH]; intros w; simpl.
  - intros [= <-] Hx. unfold bind. now rewrite Hx.
  - intros H Hx. apply bind_inv in H.
    destruct H as [([] & w2 & H1 & H2)|(e' & _ & [=])].
    unfold bind at 1. rewrite H1. now apply IH.
Qed.

Lemma os_walk_raise P depth top body w e w' :
  (forall w, P w w) -> (forall w1 w2 w3, P w1 w2 -> P w2 w3 -> P w1 w3) ->
  (forall root subdirs files, keeps P (body root subdirs files)) ->
  os_walk depth top body w = (Raise e, w') ->
  (e = "maximum recursion depth exceeded" /\ P w w')
  \/ exists root subdirs files w1,
       P w w1 /\ body root subdirs files w1 = (Raise e, w').
Proof.
  intros Prefl Ptrans Hb. revert top w.
  induction depth as [|k IH]; intros top w; simpl.
  - intros [= <- <-]. left. auto.
  - intros H. apply bind_inv in H.
    destruct H as [(l & w1 & H1 & H2)|(e' & H1 & _)].
    2:{ discriminate. }
    injection H1 as El <-.
    destruct l as [[subdirs files]|]; [|discriminate].
    apply bind_inv in H2.
    destruct H2 as [([] & w2 & H2 & H3)|(e' & H2 & [= ->])].
    + apply for_each_raise in H3.
      destruct H3 as (l1 & name & l2 & w3 & _ & F & H3).
      assert (P w w3) as Pw3.
      { eapply Ptrans; [eapply Hb; eauto|].
        eapply keeps_for_each; [exact Prefl | exact Ptrans | | exact F].
        intros x _. apply keeps_bind; auto.
        - apply keeps_observe; auto.
        - intros [|]; [apply keeps_ret; auto | apply keeps_walk; auto]. }
      unfold bind, os_path_islink in H3.
      destruct (islink_at w3 _); [discriminate|].
      destruct (IH _ _ H3) as [[-> Pw]|(root & sd & fl & w4 & Pw & Hr)].
      * left. eauto.
      * right. exists root, sd, fl, w4. eauto.
    + right. exists top, subdirs, files, w. auto.
Qed.

Lemma parent_copy_raise src dst root w e w' :
  parent_copy src dst root w = (Raise e, w') ->
  exists cause, e = copy_failure src cause.
Proof.
  unfold parent_copy. intros H. apply try_inv in H.
  destruct H as [(a & _ & [=])|(cause & w1 & _ & [= <- _])].
  now exists cause.
Qed.

Lemma os_stat_inv s w r w' :
  os_stat s w = (r, w') ->
  w' = w /\
  ((exists st d, node_at w s = Some (File st d) /\ r = Ok st)
   \/ (is_file (node_at w s) = false /\ r = Raise (oserror ENOENT s))).
Proof.
  unfold os_stat.
  destruct (node_at w s) as [[st d| |]|]; intros [= <- <-]; split; eauto.
Qed.

Lemma getatime_inv s w r w' :
  os_path_getatime s w = (r, w') ->
  w' = w /\
  ((exists st d, node_at w s = Some (File st d) /\ r = Ok (st_atime st))
   \/ (is_file (node_at w s) = false /\ r = Raise (oserror ENOENT s))).
Proof.
  unfold os_path_getatime. intros H. apply bind_inv in H.
  destruct H as [(st & w1 & H1 & [= <- <-])|(e & H1 & ->)];
    apply os_stat_inv in H1; destruct H1 as [-> [(st' & d & E & [=])|[E [=]]]]; subst;
    split; eauto.
Qed.

Lemma getmtime_inv s w r w' :
  os_path_getmtime s w = (r, w') ->
  w' = w /\
  ((exists st d, node_at w s = Some (File st d) /\ r = Ok (st_mtime st))
   \/ (is_file (node_at w s) = false /\ r = Raise (oserror ENOENT s))).
Proof.
  unfold os_path_getmtime. intros H. apply bind_inv in H.
  destruct H as [(st & w1 & H1 & [= <- <-])|(e & H1 & ->)];
    apply os_stat_inv in H1; destruct H1 as [-> [(st' & d & E & [=])|[E [=]]]]; subst;
    split; eauto.
Qed.

(** What running the loop body on one entry amounts to. *)
Lemma collect_file_inv src dst root f w r w' :
  forall path, path = (root ++ "/" ++ f)%string ->
  collect_file src dst root f w = (r, w') ->
  (r = Ok tt /\ w' = w /\
     (is_source f = false \/ islink_at w path = true
      \/ exists st d, node_at w path = Some (File st d)
                      /\ (st_atime st <= st_mtime st)%Z))
  \/ (is_source f = true /\ islink_at w path = false
      /\ is_file (node_at w path) = false
      /\ r = Raise (oserror ENOENT path) /\ w' = w)
  \/ (is_source f = true /\ islink_at w path = false
      /\ (exists st d, node_at w path = Some (File st d)
                       /\ (st_mtime st < st_atime st)%Z)
      /\ parent_copy path dst src w = (r, w')).
Proof.
  unfold collect_file. intros path <- H.
  destruct (is_source f); [|injection H as <- <-; left; auto].
  apply bind_inv in H. destruct H as [(l & w1 & [= <- <-] & H)|(e & [=] & _)].
  destruct (islink_at w path) eqn:L; [injection H as <- <-; left; auto|].
  apply bind_inv in H. destruct H as [(a & w1 & H1 & H)|(e & H1 & ->)];
    apply getatime_inv in H1; destruct H1 as [-> [(st & d & E & [=])|[E [=]]]]; subst.
  2:{ right; left. auto. }
  apply bind_inv in H. destruct H as [(m & w1 & H1 & H)|(e & H1 & ->)];
    apply getmtime_inv in H1; destruct H1 as [-> [(st' & d' & E' & [=])|[E' [=]]]]; subst.
  2:{ rewrite E in E'. discriminate. }
  rewrite E in E'. injection E' as <- <-.
  destruct (st_mtime st <? st_atime st)%Z eqn:C.
  - right; right. apply Z.ltb_lt in C. repeat split; eauto.
  - injection H as <- <-. left. apply Z.ltb_ge in C. repeat split; eauto 10.
Qed.

Lemma collect_file_raise src dst root f w e w' :
  collect_file src dst root f w = (Raise e, w') ->
  (exists p, e = oserror ENOENT p /\ w' = w)
  \/ exists p, parent_copy p dst src w = (Raise e, w').
Proof.
  intros H. eapply collect_file_inv in H; [|reflexivity].
  destruct H as [([=] & _)|[(_ & _ & _ & [= ->] & ->)|(_ & _ & _ & H)]]; eauto.
Qed.

(** C4.  When the collection fails, [main] raises the failure wrapped as
    [Could not collect: ...] and the handler prints it.  A failure that
    comes from a copy is the one [parent_copy] raised for its file [p],
    [Could not copy p: cause]; the world the collection ends in is the
    world that failed copy left, so nothing ran after it, and it extends
    the world the collection started in: what was copied before is still
    there. *)
Theorem collect_failure_reported (s d : string) (w : world) (e : string) (w' : world)
    (Hs : s <> "") (Hd : d <> "") (He : exists_at w s = true)
    (H : collect_tree s d w = (Raise e, w')) :
  main (collect_args s d) w = (Raise ("Could not collect: " ++ e)%string, w')
  /\ run (collect_args s d) w
     = (0%Z, say ("Error: Could not collect: " ++ e)%string w')
  /\ extends w w'
  /\ (e = "maximum recursion depth exceeded"
      \/ (exists p, e = oserror ENOENT p)
      \/ exists p cause w1,
           e = copy_failure p cause /\ extends w w1 /\
           parent_copy p (Path.render (Path.abspath (cwd w) d))
                         (Path.render (Path.abspath (cwd w) s)) w1
           = (Raise e, w')).
Proof.
  assert (Hm : main (collect_args s d) w
               = (Raise ("Could not collect: " ++ e)%string, w')).
  { unfold main; simpl. apply String.eqb_neq in Hs, Hd. rewrite Hs, Hd. simpl.
    unfold bind, os_path_exists. rewrite He. simpl.
    unfold try_except. now rewrite H. }
  split; [exact Hm|]. split.
  { unfold run, script, try_except. now rewrite Hm. }
  split; [eapply collect_tree_extends; eauto|].
  unfold collect_tree in H. rewrite reraise_id in H.
  unfold bind at 1 2, os_path_abspath in H.
  apply (os_walk_raise extends) in H;
    [ | exact extends_refl | exact extends_trans | ].
  2:{ intros root subdirs files. apply keeps_for_each.
      - exact extends_refl.
      - exact extends_trans.
      - intros f _. apply collect_file_extends. }
  destruct H as [[-> _]|(root & subdirs & files & w1 & E1 & H)]; [now left|].
  right. apply for_each_raise in H.
  destruct H as (l1 & f & l2 & w2 & _ & F & H).
  assert (E2 : extends w w2).
  { eapply extends_trans; [exact E1|].
    eapply keeps_for_each; [exact extends_refl | exact extends_trans | | exact F].
    intros x _. apply collect_file_extends. }
  apply collect_file_raise in H. destruct H as [(p & -> & _)|(p & H)].
  - left. eauto.
  - right. destruct (parent_copy_raise _ _ _ _ _ _ H) as [cause ->].
    exists p, cause, w2. auto.
Qed.

Lemma collect_failure_reported_witness :
  run (collect_args "/s" "/out") blocked
  = (0%Z, say "Error: Could not collect: Could not copy /s/sub/b.c: [Errno 21] Is a directory: '/out/sub/b.c'"
              (snd (collect_tree "/s" "/out" blocked))).
Proof.
  apply (collect_failure_reported "/s" "/out" blocked
           "Could not copy /s/sub/b.c: [Errno 21] Is a directory: '/out/sub/b.c'"
           (snd (collect_tree "/s" "/out" blocked)));
    [discriminate | discriminate | reflexivity | vm_compute; reflexivity].
Defined.

Example blocked_keeps_first_copy :
  let w' := snd (run (collect_args "/s" "/out") blocked) in
  resolve (fs w') ["out"; "main.c"] = Some (regular 10 5 "M")
  /\ resolve (fs w') ["out"; "t"] = None.
Proof. cbv zeta. split; vm_compute; reflexivity. Qed.

(** ** Path strings *)

Lemma append_assoc (a b c : string) : ((a ++ b) ++ c = a ++ (b ++ c))%string.
Proof. induction a as [|x a IH]; simpl; [reflexivity | now rewrite IH]. Qed.

Lemma append_nil_r (a : string) : (a ++ "")%string = a.
Proof. induction a as [|x a IH]; simpl; [reflexivity | now rewrite IH]. Qed.

Lemma split_slash_nonempty s : Path.split_slash s <> [].
Proof.
  destruct s as [|c r]; simpl; [discriminate|].
  destruct (Ascii.eqb c "/"); [discriminate|].
  destruct (Path.split_slash r); discriminate.
Qed.

Lemma split_slash_app a b :
  Path.split_slash (a ++ "/" ++ b)%string = Path.split_slash a ++ Path.split_slash b.
Proof.
  induction a as [|c a IH]; simpl; [reflexivity|].
  destruct (Ascii.eqb c "/"); simpl.
  - f_equal. exact IH.
  - simpl in IH. rewrite IH.
    destruct (Path.split_slash a) eqn:E; [now apply split_slash_nonempty in E|].
    reflexivity.
Qed.

Lemma split_slash_name f : Path.has_slash f = false -> Path.split_slash f = [f].
Proof.
  induction f as [|c r IH]; simpl; [reflexivity|].
  destruct (Ascii.eqb c "/"); simpl; [discriminate|].
  intros H. now rewrite (IH H).
Qed.

Lemma split_slash_no_slash s :
  Forall (fun c => Path.has_slash c = false) (Path.split_slash s).
Proof.
  induction s as [|c r IH]; simpl.
  - constructor; [reflexivity | constructor].
  - destruct (Ascii.eqb c "/") eqn:E.
    + constructor; [reflexivity | exact IH].
    + destruct (Path.split_slash r) as [|x xs]; inversion IH; subst.
      * constructor; [simpl; now rewrite E | constructor].
      * constructor; [simpl; now rewrite E | assumption].
Qed.

Lemma valid_name_inv f :
  Path.valid_name f = true ->
  Path.has_slash f = false /\ f <> "" /\ f <> "." /\ f <> "..".
Proof.
  unfold Path.valid_name. intros H.
  apply andb_prop in H. destruct H as [H H4].
  apply andb_prop in H. destruct H as [H H3].
  apply andb_prop in H. destruct H as [H1 H2].
  apply negb_true_iff in H1, H2, H3, H4.
  apply String.eqb_neq in H2, H3, H4. auto.
Qed.

Lemma norm_step_name st f : Path.valid_name f = true -> Path.norm_step st f = st ++ [f].
Proof.
  intros H. apply valid_name_inv in H. destruct H as (_ & H1 & H2 & H3).
  unfold Path.norm_step. apply String.eqb_neq in H1, H2, H3.
  now rewrite H1, H2, H3.
Qed.

Lemma fold_norm_valid p st : valid p -> fold_left Path.norm_step p st = st ++ p.
Proof.
  intros H. revert st. induction H as [|c p Hc Hp IH]; intros st; simpl.
  - now rewrite app_nil_r.
  - rewrite (norm_step_name _ _ Hc), IH, <- app_assoc. reflexivity.
Qed.

Lemma isabs_app a b : a <> "" -> Path.isabs (a ++ b)%string = Path.isabs a.
Proof. destruct a; [congruence | reflexivity]. Qed.

Lemma abspath_child cwd root f :
  root <> "" -> Path.valid_name f = true ->
  Path.abspath cwd (root ++ "/" ++ f)%string = Path.abspath cwd root ++ [f].
Proof.
  intros Hr Hf. unfold Path.abspath.
  rewrite split_slash_app, fold_left_app, (isabs_app _ _ Hr).
  destruct (valid_name_inv _ Hf) as (Hs & _).
  rewrite (split_slash_name _ Hs). simpl. now apply norm_step_name.
Qed.

Lemma ends_with_slash_inv s :
  Path.ends_with_slash s = true -> exists t, s = (t ++ "/")%string.
Proof.
  induction s as [|c r IH]; simpl; [discriminate|].
  destruct r as [|c' r'].
  - intros H. apply Ascii.eqb_eq in H. subst. now exists "".
  - intros H. destruct (IH H) as [t ->]. now exists (String c t).
Qed.

Lemma valid_name_not_abs f : Path.valid_name f = true -> Path.isabs f = false.
Proof.
  intros H. apply valid_name_inv in H. destruct H as (Hs & Hn & _).
  destruct f as [|c r]; [reflexivity|]. simpl in *.
  now destruct (Ascii.eqb c "/").
Qed.

Lemma abspath_join cwd top name :
  top <> "" -> Path.valid_name name = true ->
  Path.abspath cwd (Path.join top name) = Path.abspath cwd top ++ [name].
Proof.
  intros Ht Hn. unfold Path.join.
  rewrite (valid_name_not_abs _ Hn).
  apply String.eqb_neq in Ht. rewrite Ht. simpl.
  apply String.eqb_neq in Ht.
  destruct (Path.ends_with_slash top) eqn:E; [|now apply abspath_child].
  destruct (ends_with_slash_inv _ E) as [t ->].
  rewrite append_assoc.
  destruct (valid_name_inv _ Hn) as (Hs & _).
  assert (Ha : Path.abspath cwd (t ++ "/")%string
               = fold_left Path.norm_step (Path.split_slash t)
                   (if Path.isabs (t ++ "/" ++ name)%string then [] else cwd)).
  { unfold Path.abspath.
    change (t ++ "/")%string with (t ++ "/" ++ "")%string at 1.
    rewrite split_slash_app, fold_left_app. simpl.
    destruct t; reflexivity. }
  rewrite Ha. unfold Path.abspath.
  rewrite split_slash_app, fold_left_app, (split_slash_name _ Hs). simpl.
  now apply norm_step_name.
Qed.

Lemma valid_removelast p : valid p -> valid (removelast p).
Proof.
  unfold valid. induction 1 as [|c p Hc Hp IH]; simpl; [constructor|].
  destruct p; [constructor | constructor; assumption].
Qed.

Lemma norm_step_valid st c :
  valid st -> Path.has_slash c = false -> valid (Path.norm_step st c).
Proof.
  intros Hst Hc. unfold Path.norm_step.
  destruct (c =? "") eqn:E1; [exact Hst|].
  destruct (c =? ".") eqn:E2; [exact Hst|]. simpl.
  destruct (c =? "..") eqn:E3; [now apply valid_removelast|].
  apply Forall_app. split; [assumption|].
  constructor; [|constructor].
  unfold Path.valid_name. now rewrite Hc, E1, E2, E3.
Qed.

Lemma abspath_valid cwd s : valid cwd -> valid (Path.abspath cwd s).
Proof.
  intros Hc. unfold Path.abspath.
  set (st0 := if Path.isabs s then [] else cwd).
  assert (H0 : valid st0)
    by (subst st0; destruct (Path.isabs s); [constructor | exact Hc]).
  clearbody st0. revert st0 H0.
  generalize (split_slash_no_slash s). generalize (Path.split_slash s).
  intros l Hs. induction Hs as [|c l Hc' Hl IH]; intros st Hst; simpl; [exact Hst|].
  apply IH. now apply norm_step_valid.
Qed.

Lemma valid_no_slash p : valid p -> Forall (fun c => Path.has_slash c = false) p.
Proof.
  intros H. eapply Forall_impl; [|exact H].
  intros c Hc. now apply valid_name_inv in Hc.
Qed.

Lemma split_join p :
  p <> [] -> Forall (fun c => Path.has_slash c = false) p ->
  Path.split_slash (Path.join_slash p) = p.
Proof.
  induction p as [|x p IH]; [congruence|]. intros _ H.
  inversion H as [|? ? Hx Hp]; subst.
  destruct p as [|y r].
  - simpl. now apply split_slash_name.
  - change (Path.join_slash (x :: y :: r))
      with (x ++ "/" ++ Path.join_slash (y :: r))%string.
    rewrite split_slash_app, (split_slash_name _ Hx), IH; [reflexivity | discriminate | assumption].
Qed.

Lemma abspath_render cwd p : valid p -> Path.abspath cwd (Path.render p) = p.
Proof.
  intros H. unfold Path.abspath, Path.render. simpl.
  destruct p as [|x r]; [reflexivity|].
  rewrite split_join; [ | discriminate | now apply valid_no_slash].
  change (Path.norm_step [] "") with (@nil string).
  now rewrite fold_norm_valid.
Qed.

Lemma render_not_empty p : Path.render p <> "".
Proof. discriminate. Qed.

Lemma abspath_below cwd dst rel :
  dst <> "" -> valid rel -> rel <> [] ->
  Path.abspath cwd (dst ++ "/" ++ Path.join_slash rel)%string
  = Path.abspath cwd dst ++ rel.
Proof.
  intros Hd Hv Hr. unfold Path.abspath.
  rewrite split_slash_app, fold_left_app, (isabs_app _ _ Hd).
  rewrite split_join; [ | assumption | now apply valid_no_slash].
  now apply fold_norm_valid.
Qed.

Lemma common_prefix_app p q : Path.common_prefix p (p ++ q) = length p.
Proof.
  induction p as [|x p IH]; simpl; [now destruct q|].
  now rewrite String.eqb_refl, IH.
Qed.

Lemma skipn_length_app {A} (p q : list A) : skipn (length p) (p ++ q) = q.
Proof. induction p; simpl; auto. Qed.

Lemma relpath_list_below cwd p start rel :
  Path.abspath cwd p = Path.abspath cwd start ++ rel ->
  Path.relpath_list cwd p start = rel.
Proof.
  intros H. unfold Path.relpath_list. rewrite H, common_prefix_app.
  now rewrite Nat.sub_diag, skipn_length_app.
Qed.

Lemma relpath_below cwd p start rel :
  Path.abspath cwd p = Path.abspath cwd start ++ rel -> rel <> [] ->
  Path.relpath cwd p start = Path.join_slash rel.
Proof.
  intros H Hr. unfold Path.relpath. rewrite (relpath_list_below _ _ _ _ H).
  destruct rel; [congruence | reflexivity].
Qed.

Lemma has_slash_app a b : Path.has_slash (a ++ "/" ++ b)%string = true.
Proof.
  induction a as [|c a IH]; simpl; [reflexivity|].
  simpl in IH. rewrite IH. apply orb_true_r.
Qed.

Lemma after_last_slash_app a f :
  Path.has_slash f = false ->
  Path.after_last_slash (a ++ "/" ++ f)%string = S (String.length a).
Proof.
  intros Hf. induction a as [|c a IH]; simpl.
  - now rewrite Hf.
  - pose proof (has_slash_app a f) as H. simpl in H, IH. now rewrite H, IH.
Qed.

Lemma after_last_slash_name f :
  Path.has_slash f = false -> Path.after_last_slash f = 0%nat.
Proof.
  induction f as [|c r IH]; simpl; [reflexivity|].
  destruct (Ascii.eqb c "/"); simpl; [discriminate|].
  intros H. now rewrite H.
Qed.

Lemma substring_all s : substring 0 (String.length s) s = s.
Proof. induction s as [|c s IH]; simpl; [reflexivity | now rewrite IH]. Qed.

Lemma substring_head a b :
  substring 0 (String.length a) (a ++ b)%string = a.
Proof.
  induction a as [|c a IH]; simpl; [now destruct b | now rewrite IH].
Qed.

Lemma substring_tail a b :
  substring (String.length a) (String.length b) (a ++ b)%string = b.
Proof.
  induction a as [|c a IH]; simpl; [apply substring_all | exact IH].
Qed.

Lemma length_append a b :
  String.length (a ++ b)%string = (String.length a + String.length b)%nat.
Proof. induction a as [|c a IH]; simpl; [reflexivity | now rewrite IH]. Qed.

Lemma rstrip_slash_app a :
  a <> "" -> Path.ends_with_slash a = false ->
  Path.rstrip_slash (a ++ "/")%string = a.
Proof.
  induction a as [|c a IH]; [congruence|]. intros _ H.
  destruct a as [|c' a'].
  - simpl in *. now rewrite H.
  - assert (E : Path.rstrip_slash (String c' a' ++ "/")%string = String c' a')
      by (apply IH; [discriminate | exact H]).
    simpl in *. now rewrite E.
Qed.

Lemma all_slashes_app a :
  a <> "" -> Path.ends_with_slash a = false ->
  Path.all_slashes (a ++ "/")%string = false.
Proof.
  induction a as [|c a IH]; [congruence|]. intros _ H.
  destruct a as [|c' a'].
  - simpl in *. now rewrite H.
  - assert (E : Path.all_slashes (String c' a' ++ "/")%string = false)
      by (apply IH; [discriminate | exact H]).
    simpl in *. rewrite E. apply andb_false_r.
Qed.

Lemma substring_before a f :
  substring 0 (S (String.length a)) (a ++ "/" ++ f)%string = (a ++ "/")%string.
Proof.
  induction a as [|c a IH]; simpl.
  - now destruct f.
  - simpl in IH. now rewrite IH.
Qed.

Lemma substring_after a f :
  substring (S (String.length a))
            (String.length (a ++ "/" ++ f)%string - S (String.length a))
            (a ++ "/" ++ f)%string = f.
Proof.
  induction a as [|c a IH]; simpl.
  - rewrite Nat.sub_0_r. apply substring_all.
  - simpl in IH. exact IH.
Qed.

(** [posixpath.split] of a file named [f] in the directory [a]. *)
Lemma split_child a f :
  Path.has_slash f = false -> a <> "" -> Path.ends_with_slash a = false ->
  Path.split (a ++ "/" ++ f)%string = (a, f).
Proof.
  intros Hf Ha He. unfold Path.split.
  rewrite (after_last_slash_app _ _ Hf), substring_before, substring_after.
  now rewrite (all_slashes_app _ Ha He), (rstrip_slash_app _ Ha He).
Qed.

Lemma basename_child a f :
  Path.has_slash f = false -> Path.basename (a ++ "/" ++ f)%string = f.
Proof.
  intros Hf. unfold Path.basename, Path.split.
  rewrite (after_last_slash_app _ _ Hf). simpl snd. apply substring_after.
Qed.

Lemma split_name f : Path.has_slash f = false -> Path.split f = (""%string, f).
Proof.
  intros Hf. unfold Path.split. rewrite (after_last_slash_name _ Hf).
  rewrite Nat.sub_0_r, substring_all.
  now destruct f.
Qed.

Lemma ends_with_slash_name f :
  Path.has_slash f = false -> Path.ends_with_slash f = false.
Proof.
  induction f as [|c r IH]; simpl; [reflexivity|].
  destruct (Ascii.eqb c "/"); simpl; [discriminate|].
  intros H. destruct r; [reflexivity | now apply IH].
Qed.

Lemma ends_with_slash_app a b :
  b <> "" -> Path.ends_with_slash (a ++ b)%string = Path.ends_with_slash b.
Proof.
  intros Hb. induction a as [|c a IH]; simpl; [reflexivity|].
  destruct (a ++ b)%string eqn:E; [|exact IH].
  destruct a; [simpl in E; congruence | discriminate].
Qed.

Lemma join_slash_shape rel :
  valid rel -> rel <> [] ->
  Path.join_slash rel <> "" /\ Path.ends_with_slash (Path.join_slash rel) = false.
Proof.
  induction 1 as [|x r Hx Hr IH]; [congruence|]. intros _.
  destruct (valid_name_inv _ Hx) as (Hs & Hn & _).
  destruct r as [|y r'].
  - simpl. split; [exact Hn | now apply ends_with_slash_name].
  - change (Path.join_slash (x :: y :: r'))
      with (x ++ "/" ++ Path.join_slash (y :: r'))%string.
    destruct IH as [IH1 IH2]; [discriminate|].
    set (J := Path.join_slash (y :: r')) in *. clearbody J. split.
    + destruct x; [congruence | discriminate].
    + rewrite ends_with_slash_app by discriminate.
      destruct J as [|a s]; [congruence | exact IH2].
Qed.

Lemma join_slash_snoc rel f :
  rel <> [] -> Path.join_slash (rel ++ [f]) = (Path.join_slash rel ++ "/" ++ f)%string.
Proof.
  induction rel as [|x r IH]; [congruence|]. intros _.
  destruct r as [|y r'].
  - reflexivity.
  - change (Path.join_slash ((x :: y :: r') ++ [f]))
      with (x ++ "/" ++ Path.join_slash ((y :: r') ++ [f]))%string.
    rewrite IH by discriminate.
    change (Path.join_slash (x :: y :: r'))
      with (x ++ "/" ++ Path.join_slash (y :: r'))%string.
    now rewrite !append_assoc.
Qed.

(** The relative path of a file [f] below the directories [rel] splits
    into the directories and the name. *)
Lemma split_relative rel f :
  valid rel -> Path.valid_name f = true ->
  Path.split (Path.join_slash (rel ++ [f])) = (Path.join_slash rel, f).
Proof.
  intros Hr Hf. destruct (valid_name_inv _ Hf) as (Hs & _).
  destruct rel as [|x r].
  - simpl. now apply split_name.
  - rewrite join_slash_snoc by discriminate.
    destruct (join_slash_shape (x :: r) Hr) as [H1 H2]; [discriminate|].
    now apply split_child.
Qed.

Lemma join_slash_empty rel : valid rel -> Path.join_slash rel = "" -> rel = [].
Proof.
  intros Hr H. destruct rel as [|x r]; [reflexivity|].
  destruct (join_slash_shape (x :: r) Hr) as [H1 _]; [discriminate | congruence].
Qed.

(** ** What a copy does *)

Lemma read_file_inv s w d w' :
  read_file s w = (Ok d, w') ->
  exists st, node_at w s = Some (File st d) /\ owner_can_read st = true /\
    (((st_atime st <= st_mtime st)%Z /\
      exists n, put (fs w) (Path.abspath (cwd w) s)
                    (File (mkstat (st_mode st) (clock w) (st_mtime st)) d) = Some n
                /\ w' = tick (set_fs n w))
     \/ ((st_mtime st < st_atime st)%Z /\ w' = tick w)).
Proof.
  unfold read_file.
  destruct (node_at w s) as [[st d0| |]|] eqn:E; try discriminate.
  destruct (owner_can_read st) eqn:R; [|discriminate].
  destruct (st_atime st <=? st_mtime st)%Z eqn:C.
  - destruct (put _ _ _) as [n|] eqn:P; [|discriminate].
    intros [= <- <-]. exists st. apply Z.leb_le in C. repeat split; eauto.
  - intros [= <- <-]. exists st. apply Z.leb_gt in C. repeat split; eauto.
Qed.

Lemma write_file_inv s d w w' :
  write_file s d w = (Ok tt, w') ->
  exists stw n, is_dir (node_at w s) = false /\
    put (fs w) (Path.abspath (cwd w) s) (File stw d) = Some n /\
    w' = tick (set_fs n w).
Proof.
  unfold write_file.
  destruct (node_at w s) as [[st d0| |]|] eqn:E; try discriminate.
  - destruct (owner_can_write st); [|discriminate].
    destruct (put _ _ _) as [n|] eqn:P; [|discriminate].
    intros [= <-]. eauto.
  - destruct (put _ _ _) as [n|] eqn:P; [|discriminate].
    intros [= <-]. eauto.
Qed.

Lemma update_file_ok s f w w' :
  update_file s f w = (Ok tt, w') ->
  exists st d n, node_at w s = Some (File st d) /\
    put (fs w) (Path.abspath (cwd w) s) (f st d) = Some n /\
    w' = tick (set_fs n w).
Proof.
  intros H. apply update_file_inv in H.
  destruct H as [(st & d & n & E & P & _ & ->)|[[=] _]]. eauto 6.
Qed.

(** The destination [shutil.copy2] writes to. *)
Lemma shutil_copy2_ok src dst w w' :
  shutil_copy2 src dst w = (Ok tt, w') ->
  forall dst' ps pd,
  dst' = (if isdir_at w dst then Path.join dst (Path.basename src) else dst) ->
  ps = Path.abspath (cwd w) src -> pd = Path.abspath (cwd w) dst' ->
  exists st0 d st n1,
    resolve (fs w) ps = Some (File st0 d) /\ owner_can_read st0 = true /\ ps <> pd /\
    (((st_atime st0 <= st_mtime st0)%Z /\
      st = mkstat (st_mode st0) (clock w) (st_mtime st0) /\
      put (fs w) ps (File st d) = Some n1)
     \/ ((st_mtime st0 < st_atime st0)%Z /\ st = st0 /\ n1 = fs w)) /\
    is_dir (resolve n1 pd) = false /\
    put n1 pd (File st d) = Some (fs w') /\
    cwd w' = cwd w /\ stdout w' = stdout w /\
    trace w' = trace w ++ [EUtime pd (st_atime st) (st_mtime st); ECopy ps pd].
Proof.
  unfold shutil_copy2. intros H dst' ps pd -> -> ->.
  set (dst' := if isdir_at w dst then Path.join dst (Path.basename src) else dst) in *.
  apply bind_inv in H. destruct H as [(b & w0 & [= <- <-] & H)|(e & [=] & _)].
  fold dst' in H.
  apply bind_inv in H. destruct H as [([] & w1 & Hcf & H)|(e & _ & [=])].
  apply bind_inv in H. destruct H as [([] & w2 & Hcs & H)|(e & _ & [=])].
  injection H as <-.
  (* copyfile *)
  unfold shutil_copyfile in Hcf.
  apply bind_inv in Hcf. destruct Hcf as [(w0 & w0' & [= <- <-] & Hcf)|(e & [=] & _)].
  destruct (path_eqb _ _ && _) eqn:Same; [discriminate|].
  apply bind_inv in Hcf. destruct Hcf as [(d & wr & Hr & Hw)|(e & _ & [=])].
  apply read_file_inv in Hr. destruct Hr as (st0 & E0 & R0 & Hr).
  unfold node_at in E0.
  assert (Hne : Path.abspath (cwd w) src <> Path.abspath (cwd w) dst').
  { intros Heq. unfold path_eqb, node_at in Same. rewrite E0 in Same.
    destruct (list_eq_dec string_dec _ _); [discriminate | contradiction]. }
  (* the world after the read *)
  assert (exists st n1,
    (((st_atime st0 <= st_mtime st0)%Z /\
      st = mkstat (st_mode st0) (clock w) (st_mtime st0) /\
      put (fs w) (Path.abspath (cwd w) src) (File st d) = Some n1)
     \/ ((st_mtime st0 < st_atime st0)%Z /\ st = st0 /\ n1 = fs w)) /\
    resolve n1 (Path.abspath (cwd w) src) = Some (File st d) /\
    fs wr = n1 /\ cwd wr = cwd w /\ stdout wr = stdout w /\ trace wr = trace w)
    as (st & n1 & Hst & E1 & F1 & C1 & O1 & T1).
  { destruct Hr as [(C & n & P & ->)|(C & ->)].
    - eexists _, n. repeat split; simpl; eauto.
      eapply resolve_put_same; eauto.
    - exists st0, (fs w). repeat split; simpl; eauto. }
  clear Hr.
  apply write_file_inv in Hw. destruct Hw as (stw & n2 & D2 & P2 & ->).
  unfold node_at in D2. rewrite C1, F1 in *.
  (* copystat *)
  unfold shutil_copystat in Hcs.
  apply bind_inv in Hcs. destruct Hcs as [(st' & ws & Hs & Hcs)|(e & _ & [=])].
  apply os_stat_inv in Hs. destruct Hs as [-> [(st'' & d'' & Es & [= <-])|[_ [=]]]].
  unfold node_at in Es; simpl in Es. rewrite C1 in Es.
  assert (Es' : resolve n2 (Path.abspath (cwd w) src) = Some (File st d)).
  { erewrite put_file_frame; eauto. now rewrite E1. }
  rewrite Es' in Es. injection Es as <- <-.
  apply bind_inv in Hcs. destruct Hcs as [([] & w3 & Hu & Hc)|(e & _ & [=])].
  unfold os_utime in Hu.
  apply bind_inv in Hu. destruct Hu as [([] & w4 & Hu & [= <-])|(e & _ & [=])].
  apply update_file_ok in Hu. destruct Hu as (su & du & n3 & Eu & Pu & ->).
  unfold node_at in Eu; simpl in Eu, Pu. rewrite C1 in Eu, Pu.
  rewrite (resolve_put_same _ _ _ _ P2) in Eu. injection Eu as <- <-.
  rewrite (put_put _ _ _ _ _ P2) in Pu.
  apply update_file_ok in Hc. destruct Hc as (sc & dc & n4 & Ec & Pc & ->).
  unfold node_at in Ec; simpl in Ec, Pc. rewrite C1 in Ec, Pc.
  rewrite (resolve_put_same _ _ _ _ Pu) in Ec. injection Ec as <- <-.
  rewrite (put_put _ _ _ _ _ Pu) in Pc. simpl in Pc.
  exists st0, d, st, n1. simpl. rewrite C1, O1, T1.
  repeat split; auto.
  - now destruct st.
  - now rewrite <- app_assoc.
Qed.

Lemma parent_copy_ok src dst root w w' :
  parent_copy src dst root w = (Ok tt, w') ->
  (parent_dirs_of w src root = "" /\ shutil_copy2 src dst w = (Ok tt, w'))
  \/ (parent_dirs_of w src root <> "" /\
      exists w1,
        ((exists_at w (dst ++ "/" ++ parent_dirs_of w src root) = true /\ w1 = w)
         \/ (exists_at w (dst ++ "/" ++ parent_dirs_of w src root) = false /\
             os_makedirs (dst ++ "/" ++ parent_dirs_of w src root) 493 w = (Ok tt, w1)))
        /\ shutil_copy2 src (dst ++ "/" ++ parent_dirs_of w src root) w1 = (Ok tt, w')).
Proof.
  unfold parent_copy, parent_dirs_of. intros H.
  apply try_inv in H. destruct H as [([] & H & _)|(e & w1 & _ & [=])].
  apply bind_inv in H. destruct H as [(rel & w0 & [= <- <-] & H)|(e & [=] & _)].
  cbv zeta in H.
  destruct (fst (Path.split (Path.relpath (cwd w) src root)) =? "") eqn:E; simpl in H.
  - apply String.eqb_eq in E. left. split; [exact E|].
    apply bind_inv in H. destruct H as [(x & w0 & [= <- <-] & H)|(e & [=] & _)].
    exact H.
  - apply String.eqb_neq in E. right. split; [exact E|].
    apply bind_inv in H. destruct H as [(x & w2 & H1 & H)|(e & H1 & [=])].
    apply bind_inv in H1. destruct H1 as [(b & w0 & [= <- <-] & H1)|(e & [=] & _)].
    apply bind_inv in H1. destruct H1 as [([] & w3 & H1 & [= <- <-])|(e & _ & [=])].
    exists w3. split; [|exact H].
    destruct (exists_at w _) eqn:X; simpl in H1.
    + injection H1 as <-. left. auto.
    + right. auto.
Qed.

(** C6 (as the code has it).  When the path of the file relative to the
    tree root has no directory part, a successful [parent_copy] is the plain
    [shutil.copy2] to the destination as it was given: no directory is
    made, and nothing asks whether the destination exists.  When the
    destination is a directory, the copy is in it, under the name of the
    file; when it is not — when nothing is there — the copy is stored
    under the name of the destination itself. *)
Theorem root_level_copy (w : world) (src dst root : string) (w' : world)
    (Hroot : parent_dirs_of w src root = "")
    (Hok : parent_copy src dst root w = (Ok tt, w')) :
  shutil_copy2 src dst w = (Ok tt, w')
  /\ (forall T, recorded w w' T -> forall p mode, ~ In (EMakedirs p mode) T)
  /\ exists st d,
       node_at w' src = Some (File st d) /\
       (isdir_at w dst = true ->
        node_at w' (Path.join dst (Path.basename src)) = Some (File st d)) /\
       (isdir_at w dst = false -> node_at w' dst = Some (File st d)).
Proof.
  apply parent_copy_ok in Hok. destruct Hok as [[_ H]|[Hne _]]; [|congruence].
  split; [exact H|].
  destruct (shutil_copy2_ok _ _ _ _ H _ _ _ eq_refl eq_refl eq_refl)
    as (st0 & d & st & n1 & E0 & _ & Hne & Hst & Hd & P & C & _ & T).
  split.
  - intros T' HT p mode Hin. unfold recorded in HT. rewrite T in HT.
    apply app_inv_head in HT. subst T'.
    destruct Hin as [?|[?|[]]]; discriminate.
  - exists st, d. unfold node_at. rewrite C.
    assert (E1 : resolve n1 (Path.abspath (cwd w) src) = Some (File st d)).
    { destruct Hst as [(_ & _ & P1)|(_ & -> & ->)]; [|exact E0].
      eapply resolve_put_same; eauto. }
    split; [erewrite put_file_frame; eauto; now rewrite E1|].
    split; intros Hdir; rewrite Hdir in *; eapply resolve_put_same; eauto.
Qed.

Lemma root_level_copy_witness :
  exists st d,
    node_at (snd (parent_copy "/s/main.c" "/out" "/s" sample)) "/s/main.c"
    = Some (File st d)
    /\ node_at (snd (parent_copy "/s/main.c" "/out" "/s" sample))
               (Path.join "/out" (Path.basename "/s/main.c"))
       = Some (File st d).
Proof.
  destruct (root_level_copy sample "/s/main.c" "/out" "/s"
              (snd (parent_copy "/s/main.c" "/out" "/s" sample))
              ltac:(vm_compute; reflexivity) ltac:(vm_compute; reflexivity))
    as (_ & _ & st & d & Hs & Hd & _).
  exists st, d. split; [exact Hs | apply Hd; vm_compute; reflexivity].
Defined.

(** C6, counterexample.  On the machine [lone] the file [/s/main.c] sits at
    the root of the source tree and nothing is at [/out]: the copy succeeds,
    and it is not in the destination root — there is no [/out/main.c] and
    no directory [/out], but a regular file [/out] with the content of
    [main.c]. *)
Lemma root_level_copy_not_into_missing_destination :
  parent_dirs_of lone "/s/main.c" "/s" = ""
  /\ fst (parent_copy "/s/main.c" "/out" "/s" lone) = Ok tt
  /\ node_at (snd (parent_copy "/s/main.c" "/out" "/s" lone)) "/out/main.c" = None
  /\ isdir_at (snd (parent_copy "/s/main.c" "/out" "/s" lone)) "/out" = false
  /\ node_at (snd (parent_copy "/s/main.c" "/out" "/s" lone)) "/out"
     = Some (regular 10 5 "M").
Proof.
  split; [vm_compute; reflexivity|].
  split; [vm_compute; reflexivity|].
  split; [vm_compute; reflexivity|].
  split; vm_compute; reflexivity.
Qed.

(** C3, the input on which the code departs from the specification.  The only
    used file sits at the root of the source tree and the destination does
    not exist: the collection succeeds, and the copy is a regular file at
    the path of the destination, not a file [main.c] in it. *)
Theorem root_file_takes_place_of_destination :
  let w' := snd (run (collect_args "/s" "/out") lone) in
  fst (run (collect_args "/s" "/out") lone) = 0%Z
  /\ stdout w' = []
  /\ trace w' = [EUtime ["out"] 10 5; ECopy ["s"; "main.c"] ["out"]]
  /\ resolve (fs w') ["out"] = Some (regular 10 5 "M")
  /\ resolve (fs w') ["out"; "main.c"] = None.
Proof. cbv zeta. repeat split; vm_compute; reflexivity. Qed.

(** ** The walk over a tree that keeps its shape *)

Lemma bind_ok {A B} (m : M A) (k : A -> M B) w a w1 :
  m w = (Ok a, w1) -> bind m k w = k a w1.
Proof. unfold bind. now intros ->. Qed.

Lemma bind_raise {A B} (m : M A) (k : A -> M B) w e w1 :
  m w = (Raise e, w1) -> bind m k w = (Raise e, w1).
Proof. unfold bind. now intros ->. Qed.

Lemma bind_assoc {A B C} (m : M A) (k1 : A -> M B) (k2 : B -> M C) w :
  bind (bind m k1) k2 w = bind m (fun a => bind (k1 a) k2) w.
Proof. unfold bind. now destruct (m w) as [[a|e] w1]. Qed.

Lemma bind_ret {A B} (a : A) (k : A -> M B) w : bind (ret a) k w = k a w.
Proof. reflexivity. Qed.

Lemma bind_ret_r (m : M unit) w : bind m (fun _ => ret tt) w = m w.
Proof. unfold bind, ret. now destruct (m w) as [[[]|e] w1]. Qed.

Lemma for_each_app {A} (l1 l2 : list A) f w :
  for_each (l1 ++ l2) f w = (for_each l1 f ;;; for_each l2 f) w.
Proof.
  revert w. induction l1 as [|x l1 IH]; intros w; simpl.
  - reflexivity.
  - rewrite bind_assoc.
    destruct (f x w) as [[[]|e] w1] eqn:E.
    + rewrite !(bind_ok _ _ _ _ _ E). apply IH.
    + now rewrite !(bind_raise _ _ _ _ _ E).
Qed.

Lemma bind_for_each_app {A B} (l1 l2 : list A) f (k : unit -> M B) w :
  bind (for_each (l1 ++ l2) f) k w
  = bind (for_each l1 f) (fun _ => bind (for_each l2 f) k) w.
Proof.
  unfold bind at 1. rewrite for_each_app. unfold bind.
  now destruct (for_each l1 f w) as [[[]|e] w1].
Qed.
Lemma visit_each_incl below w top names name :
  snd (visit_each below w top names) = true -> In name names ->
  islink_at w (Path.join top name) = false ->
  snd (below (Path.join top name)) = true /\
  incl (fst (below (Path.join top name))) (fst (visit_each below w top names)).
Proof.
  induction names as [|x r IH]; simpl; [tauto|].
  intros Hok [->|Hin] Hl.
  - rewrite Hl in *. destruct (below (Path.join top name)) as [l1 [|]]; [|discriminate].
    destruct (visit_each below w top r) as [l2 ok2]. simpl in *.
    split; [reflexivity | apply incl_appl, incl_refl].
  - destruct (if islink_at w (Path.join top x) then _ else _) as [l1 [|]];
      [|discriminate].
    destruct (visit_each below w top r) as [l2 ok2]. simpl in *.
    destruct (IH Hok Hin Hl) as [H1 H2]. split; [exact H1 | now apply incl_appr].
Qed.

Lemma visit_each_sound below w top names v :
  In v (fst (visit_each below w top names)) ->
  exists name, In name names /\ islink_at w (Path.join top name) = false /\
               In v (fst (below (Path.join top name))).
Proof.
  induction names as [|x r IH]; simpl; [tauto|].
  destruct (islink_at w (Path.join top x)) eqn:L.
  - destruct (visit_each below w top r) as [l2 ok2]. simpl in *.
    intros H. destruct (IH H) as (name & ? & ? & ?). exists name. auto.
  - destruct (below (Path.join top x)) as [l1 [|]] eqn:B.
    + destruct (visit_each below w top r) as [l2 ok2]. simpl in *.
      intros H. apply in_app_or in H. destruct H as [H|H].
      * exists x. rewrite B. auto.
      * destruct (IH H) as (name & ? & ? & ?). exists name. auto.
    + simpl. intros H. exists x. rewrite B. auto.
Qed.

Section Walk.
Variable R : world -> world -> Prop.
Variable inside : string -> Prop.
Variable body : string -> list string -> list string -> M unit.
Variable w0 : world.
Hypothesis R_refl : forall w, R w w.
Hypothesis R_trans : forall w1 w2 w3, R w1 w2 -> R w2 w3 -> R w1 w3.
Hypothesis body_keeps :
  forall root subdirs files w w',
    inside root -> listing_at w0 root = Some (subdirs, files) -> R w0 w ->
    body root subdirs files w = (Ok tt, w') -> R w w'.
Hypothesis listing_stable :
  forall top w, inside top -> R w0 w -> listing_at w top = listing_at w0 top.
Hypothesis islink_stable :
  forall top name subdirs files w,
    inside top -> listing_at w0 top = Some (subdirs, files) -> In name subdirs ->
    R w0 w -> islink_at w (Path.join top name) = islink_at w0 (Path.join top name).
Hypothesis inside_join :
  forall top name subdirs files,
    inside top -> listing_at w0 top = Some (subdirs, files) -> In name subdirs ->
    islink_at w0 (Path.join top name) = false ->
    inside (Path.join top name).

Lemma visits_inside depth : forall top root subdirs files,
  inside top -> In (root, subdirs, files) (fst (visits depth w0 top)) ->
  inside root /\ listing_at w0 root = Some (subdirs, files).
Proof.
  induction depth as [|k IH]; intros top root subdirs files Hin; simpl; [tauto|].
  destruct (listing_at w0 top) as [[sd fl]|] eqn:L; [|simpl; tauto].
  destruct (visit_each (visits k w0) w0 top sd) as [l ok] eqn:V. simpl.
  intros [[= <- <- <-]|Hv]; [auto|].
  assert (Hv' : In (root, subdirs, files) (fst (visit_each (visits k w0) w0 top sd)))
    by now rewrite V.
  apply visit_each_sound in Hv'. destruct Hv' as (name & Hn & Hl & Hv').
  eapply IH; [|exact Hv']. eapply inside_join; eauto.
Qed.

Lemma keeps_visits (l : list visit) : forall w w',
  (forall root subdirs files, In (root, subdirs, files) l ->
     inside root /\ listing_at w0 root = Some (subdirs, files)) ->
  R w0 w -> for_each l (on_visit body) w = (Ok tt, w') -> R w w'.
Proof.
  induction l as [|[[root subdirs] files] l IH]; intros w w' Hl Hw; simpl.
  - intros [= <-]. apply R_refl.
  - intros H. apply bind_inv in H.
    destruct H as [([] & w1 & H1 & H2)|(e & _ & [=])].
    destruct (Hl root subdirs files (or_introl eq_refl)) as [Hi HL].
    assert (R1 : R w w1) by (eapply body_keeps; eauto).
    eapply R_trans; [exact R1|]. eapply IH; [|eapply R_trans; eauto|exact H2].
    intros r0 s0 f0 H0. apply Hl. now right.
Qed.

(** As long as the body keeps the shape of the tree, the walk runs the
    body on the rounds read off the initial world, and then ends. *)
Lemma os_walk_visits depth : forall top w,
  inside top -> R w0 w ->
  os_walk depth top body w
  = (for_each (fst (visits depth w0 top)) (on_visit body) ;;;
     walk_end (snd (visits depth w0 top))) w.
Proof.
  induction depth as [|k IH]; intros top w Hin Hw; [reflexivity|].
  simpl os_walk. simpl visits.
  rewrite (bind_ok (walk_listing top) _ w (listing_at w0 top) w)
    by (unfold walk_listing; now rewrite (listing_stable _ _ Hin Hw)).
  destruct (listing_at w0 top) as [[subdirs files]|] eqn:L; [|reflexivity].
  assert (Hsub : forall names w1, incl names subdirs -> R w0 w1 ->
    for_each names (fun name =>
      b <- os_path_islink (Path.join top name) ;;
      (if b then ret tt else os_walk k (Path.join top name) body)) w1
    = (for_each (fst (visit_each (visits k w0) w0 top names)) (on_visit body) ;;;
       walk_end (snd (visit_each (visits k w0) w0 top names))) w1).
  { induction names as [|name r IHr]; intros w1 Hincl Hw1; [reflexivity|].
    assert (Hname : In name subdirs) by (apply Hincl; now left).
    assert (Hr : incl r subdirs) by (intros x Hx; apply Hincl; now right).
    simpl for_each. simpl visit_each. rewrite bind_assoc.
    rewrite (bind_ok (os_path_islink (Path.join top name)) _ w1
               (islink_at w0 (Path.join top name)) w1)
      by (unfold os_path_islink; now rewrite (islink_stable _ _ _ _ _ Hin L Hname Hw1)).
    destruct (islink_at w0 (Path.join top name)) eqn:Lk.
    - rewrite bind_ret, (IHr _ Hr Hw1).
      destruct (visit_each (visits k w0) w0 top r) as [l2 ok2]. reflexivity.
    - pose proof (inside_join _ _ _ _ Hin L Hname Lk) as Hin'.
      pose proof (IH _ _ Hin' Hw1) as W.
      pose proof (fun r0 s0 f0 => visits_inside k _ r0 s0 f0 Hin') as Hvi.
      destruct (visits k w0 (Path.join top name)) as [l1 ok1].
      simpl fst in W, Hvi. simpl snd in W.
      destruct (for_each l1 (on_visit body) w1) as [[[]|e] w3] eqn:F1.
      + assert (Hw3 : R w0 w3)
          by (eapply R_trans; [exact Hw1 | eapply keeps_visits; eauto]).
        rewrite (bind_ok _ _ _ _ _ F1) in W.
        destruct ok1.
        * rewrite (bind_ok _ _ _ _ _ W), (IHr _ Hr Hw3).
          destruct (visit_each (visits k w0) w0 top r) as [l2 ok2]. simpl fst. simpl snd.
          rewrite bind_for_each_app, (bind_ok _ _ _ _ _ F1). reflexivity.
        * rewrite (bind_raise _ _ _ _ _ W). simpl fst. simpl snd.
          rewrite (bind_ok _ _ _ _ _ F1). reflexivity.
      + rewrite (bind_raise _ _ _ _ _ F1) in W. rewrite (bind_raise _ _ _ _ _ W).
        destruct ok1.
        * destruct (visit_each (visits k w0) w0 top r) as [l2 ok2]. simpl fst. simpl snd.
          rewrite bind_for_each_app, (bind_raise _ _ _ _ _ F1). reflexivity.
        * simpl fst. simpl snd. now rewrite (bind_raise _ _ _ _ _ F1). }
  destruct (visit_each (visits k w0) w0 top subdirs) as [l ok] eqn:V.
  simpl fst. simpl snd. simpl for_each. unfold on_visit at 1. rewrite bind_assoc.
  destruct (body top subdirs files w) as [[[]|e] w1] eqn:B.
  - assert (Hw1 : R w0 w1) by (eapply R_trans; [exact Hw | eapply body_keeps; eauto]).
    rewrite !(bind_ok _ _ _ _ _ B), (Hsub subdirs w1 (incl_refl _) Hw1), V. reflexivity.
  - now rewrite !(bind_raise _ _ _ _ _ B).
Qed.
End Walk.

(** ** Well-formed trees *)

Lemma wf_node_dir es :
  wf_node (Dir es) = true ->
  Forall (fun xc => Path.valid_name (fst xc) = true /\ wf_node (snd xc) = true) es.
Proof.
  induction es as [|[x c] r IH]; intros H; [constructor|].
  simpl in H. apply andb_prop in H. destruct H as [H Hr].
  apply andb_prop in H. destruct H as [Hx Hc].
  constructor; [split; assumption | apply IH; exact Hr].
Qed.

Lemma wf_node_assoc es x c :
  wf_node (Dir es) = true -> assoc x es = Some c -> wf_node c = true.
Proof.
  intros H. apply wf_node_dir in H.
  induction H as [|[y d] r [Hy Hd] Hr IH]; simpl; [discriminate|].
  destruct (y =? x); [now intros [= <-] | exact IH].
Qed.

Lemma wf_node_resolve n p v : wf_node n = true -> resolve n p = Some v -> wf_node v = true.
Proof.
  revert n. induction p as [|x r IH]; intros n Hn; simpl.
  - now intros [= <-].
  - destruct n; try discriminate.
    destruct (assoc x entries) as [c|] eqn:E; [|discriminate].
    apply IH. eapply wf_node_assoc; eauto.
Qed.

Lemma wf_names n p es x :
  wf_node n = true -> resolve n p = Some (Dir es) -> In x (map fst es) ->
  Path.valid_name x = true.
Proof.
  intros Hn Hp Hx. pose proof (wf_node_resolve _ _ _ Hn Hp) as H.
  apply wf_node_dir in H. rewrite Forall_forall in H.
  apply in_map_iff in Hx. destruct Hx as ([y c] & <- & Hin).
  now destruct (H _ Hin).
Qed.

(** ** Setting times keeps the shape of the tree *)

Lemma retimed_refl a m o : retimed a m o o.
Proof. destruct o as [[| |]|]; simpl; eauto. Qed.

Lemma retimed_trans a m o1 o2 o3 :
  retimed a m o1 o2 -> retimed a m o2 o3 -> retimed a m o1 o3.
Proof.
  destruct o1 as [[st d|st to|es]|]; simpl.
  - intros [->| ->]; simpl; intros [->| ->]; auto.
  - now intros ->.
  - intros (es' & -> & E). simpl. intros (es'' & -> & E'). exists es''. split; congruence.
  - now intros ->.
Qed.

Lemma touched_refl a m w : touched a m w w.
Proof.
  split; [reflexivity|]. split.
  - exists []. now rewrite app_nil_r.
  - intros q. apply retimed_refl.
Qed.

Lemma touched_trans a m w1 w2 w3 :
  touched a m w1 w2 -> touched a m w2 w3 -> touched a m w1 w3.
Proof.
  intros (C1 & (T1 & E1 & F1) & R1) (C2 & (T2 & E2 & F2) & R2).
  split; [congruence|]. split.
  - exists (T1 ++ T2). split; [now rewrite E2, E1, app_assoc|].
    apply Forall_app. auto.
  - intros q. eapply retimed_trans; eauto.
Qed.

Lemma put_prefix_names n q y r v n' u es :
  put n (q ++ y :: r) v = Some n' -> resolve n (q ++ y :: r) = Some u ->
  resolve n q = Some (Dir es) ->
  exists es', resolve n' q = Some (Dir es') /\ map fst es' = map fst es.
Proof.
  revert n n'. induction q as [|x q IH]; intros n n'; simpl.
  - destruct n; try discriminate.
    destruct (assoc y entries) as [c|] eqn:E; [|discriminate].
    destruct (put c r v) as [c'|]; [|discriminate].
    intros [= <-] _ [= <-]. eexists. split; [reflexivity|].
    eapply names_set_entry; eauto.
  - destruct n; try discriminate.
    destruct (assoc x entries) as [c|] eqn:E; [|discriminate].
    destruct (put c (q ++ y :: r) v) as [c'|] eqn:P; [|discriminate].
    intros [= <-] Hu Hq. simpl. rewrite assoc_set_entry_same. eauto.
Qed.

(** Replacing the stat of a file changes that file only. *)
Lemma put_file_retimed a m n p st d n' q :
  resolve n p = Some (File st d) ->
  put n p (File (mkstat (st_mode st) a m) d) = Some n' ->
  retimed a m (resolve n q) (resolve n' q).
Proof.
  intros E P.
  assert (Hd : is_dir (resolve n p) = false) by now rewrite E.
  destruct (path_cases p q) as [<-|[H|[(y & r & ->)|(y & r & ->)]]].
  - rewrite E, (resolve_put_same _ _ _ _ P). simpl. auto.
  - rewrite (resolve_put_diverge _ _ _ _ _ P H). apply retimed_refl.
  - rewrite (resolve_below _ _ _ _ Hd).
    rewrite resolve_below; [reflexivity|].
    now rewrite (resolve_put_same _ _ _ _ P).
  - destruct (put_prefix_dir _ _ _ _ _ _ P) as [D _].
    destruct (resolve n q) as [[| |es]|] eqn:Eq; try discriminate.
    simpl. eapply put_prefix_names; eauto.
Qed.

Lemma os_utime_touched a m s : keeps (touched a m) (os_utime s a m).
Proof.
  intros w r w' H. unfold os_utime in H.
  apply bind_inv in H. destruct H as [([] & w1 & H1 & [= _ <-])|(e & H1 & _)].
  - apply update_file_ok in H1. destruct H1 as (st & d & n & E & P & ->).
    split; [reflexivity|]. split.
    + exists [EUtime (Path.abspath (cwd w) s) a m]. split; [reflexivity|].
      constructor; [eauto | constructor].
    + intros q. simpl. eapply put_file_retimed; eauto.
  - apply update_file_inv in H1.
    destruct H1 as [(st & d & n & _ & _ & [=] & _)|[_ ->]]. apply touched_refl.
Qed.

Lemma prepare_file_touched a m root f : keeps (touched a m) (prepare_file a m root f).
Proof.
  unfold prepare_file. destruct (is_source f).
  - apply keeps_bind; [apply touched_trans | |].
    + apply (keeps_observe _ (touched_refl a m)).
    + intros [|]; simpl; [apply keeps_ret, touched_refl | apply os_utime_touched].
  - apply keeps_ret, touched_refl.
Qed.

Lemma retimed_kind a m o o' :
  retimed a m o o' ->
  is_dir o' = is_dir o /\ is_file o' = is_file o /\
  (forall st to, o' = Some (Link st to) <-> o = Some (Link st to)).
Proof.
  destruct o as [[st d|st to|es]|]; simpl.
  - intros [->| ->]; repeat split; intros; discriminate.
  - intros ->. repeat split; auto.
  - intros (es' & -> & _). repeat split; intros; discriminate.
  - intros ->. repeat split; auto.
Qed.

Lemma touched_isdir a m w w' s : touched a m w w' -> isdir_at w' s = isdir_at w s.
Proof.
  intros (C & _ & H). unfold isdir_at, node_at. rewrite C.
  specialize (H (Path.abspath (cwd w) s)).
  destruct (resolve (fs w) _) as [[st d|st to|es]|]; simpl in H.
  - now destruct H as [->| ->].
  - now rewrite H.
  - now destruct H as (es' & -> & _).
  - now rewrite H.
Qed.

Lemma touched_islink a m w w' s : touched a m w w' -> islink_at w' s = islink_at w s.
Proof.
  intros (C & _ & H). unfold islink_at, node_at. rewrite C.
  specialize (H (Path.abspath (cwd w) s)).
  destruct (resolve (fs w) _) as [[st d|st to|es]|]; simpl in H.
  - now destruct H as [->| ->].
  - now rewrite H.
  - now destruct H as (es' & -> & _).
  - now rewrite H.
Qed.

Lemma touched_listing a m w w' top :
  touched a m w w' -> listing_at w' top = listing_at w top.
Proof.
  intros T. pose proof T as (C & _ & H). unfold listing_at, node_at. rewrite C.
  specialize (H (Path.abspath (cwd w) top)).
  destruct (resolve (fs w) _) as [[st d|st to|es]|]; simpl in H.
  - now destruct H as [->| ->].
  - now rewrite H.
  - destruct H as (es' & -> & ->). f_equal. f_equal.
    + apply filter_ext. intros name. eapply touched_isdir; eauto.
    + apply filter_ext. intros name. f_equal. eapply touched_isdir; eauto.
  - now rewrite H.
Qed.

(** ** The rounds of the walk and the tree *)

Lemma listing_at_inv w top subdirs files :
  listing_at w top = Some (subdirs, files) ->
  exists es, node_at w top = Some (Dir es) /\
    (forall x, In x subdirs <->
               In x (map fst es) /\ isdir_at w (Path.join top x) = true) /\
    (forall x, In x files <->
               In x (map fst es) /\ isdir_at w (Path.join top x) = false).
Proof.
  unfold listing_at. destruct (node_at w top) as [[| |es]|]; try discriminate.
  intros [= <- <-]. exists es. split; [reflexivity|]. split; intros x.
  - rewrite filter_In. reflexivity.
  - rewrite filter_In, negb_true_iff. reflexivity.
Qed.

Lemma join_not_empty top name : top <> "" -> Path.join top name <> "".
Proof.
  intros Ht. unfold Path.join.
  destruct (Path.isabs name) eqn:A; [destruct name; discriminate|].
  destruct ((top =? "") || Path.ends_with_slash top);
    destruct top; try congruence; discriminate.
Qed.

Lemma resolve_continues n p q v :
  resolve n (p ++ q) = Some v -> q <> [] -> exists es, resolve n p = Some (Dir es).
Proof.
  rewrite resolve_app. destruct (resolve n p) as [[| |es]|]; try discriminate;
    destruct q; try congruence; try discriminate. eauto.
Qed.

Section Visits.
Variable w : world.
Hypothesis Hwf : wf_node (fs w) = true.

Lemma node_at_child top x es :
  top <> "" -> node_at w top = Some (Dir es) -> In x (map fst es) ->
  Path.valid_name x = true /\
  Path.abspath (cwd w) (Path.join top x) = Path.abspath (cwd w) top ++ [x] /\
  Path.abspath (cwd w) (top ++ "/" ++ x)%string = Path.abspath (cwd w) top ++ [x].
Proof.
  intros Ht Hn Hx. assert (Hv : Path.valid_name x = true) by (eapply wf_names; eauto).
  split; [exact Hv|]. split; [now apply abspath_join | now apply abspath_child].
Qed.

(** Each round is the listing of a directory at or below the top. *)
Lemma visits_sound depth : forall top root subdirs files,
  top <> "" -> In (root, subdirs, files) (fst (visits depth w top)) ->
  root <> "" /\ listing_at w root = Some (subdirs, files) /\
  exists rel, Path.abspath (cwd w) root = Path.abspath (cwd w) top ++ rel.
Proof.
  induction depth as [|k IH]; intros top root subdirs files Ht; simpl; [tauto|].
  destruct (listing_at w top) as [[sd fl]|] eqn:L; [|simpl; tauto].
  destruct (visit_each (visits k w) w top sd) as [l ok] eqn:V. simpl.
  intros [[= <- <- <-]|Hin].
  - repeat split; auto. exists []. now rewrite app_nil_r.
  - assert (Hin' : In (root, subdirs, files) (fst (visit_each (visits k w) w top sd)))
      by now rewrite V.
    apply visit_each_sound in Hin'. destruct Hin' as (name & Hn & Hl & Hv).
    destruct (IH _ _ _ _ (join_not_empty _ name Ht) Hv) as (Hr & HL & rel & Hrel).
    repeat split; auto.
    destruct (listing_at_inv _ _ _ _ L) as (es & He & Hsd & _).
    apply Hsd in Hn. destruct Hn as [Hn _].
    destruct (node_at_child _ _ _ Ht He Hn) as (_ & Hj & _).
    exists (name :: rel). rewrite Hrel, Hj, <- app_assoc. reflexivity.
Qed.

(** A walk that ends well has a round for the directory of every file
    below the top. *)
Lemma visits_complete depth : forall top rel f st d,
  top <> "" -> snd (visits depth w top) = true ->
  resolve (fs w) (Path.abspath (cwd w) top ++ rel ++ [f]) = Some (File st d) ->
  exists root subdirs files,
    In (root, subdirs, files) (fst (visits depth w top)) /\
    Path.abspath (cwd w) root = Path.abspath (cwd w) top ++ rel /\ In f files.
Proof.
  induction depth as [|k IH]; intros top rel f st d Ht; simpl; [discriminate|].
  intros Hok Hf.
  destruct (resolve_continues _ _ _ _ Hf) as [es He]; [now destruct rel|].
  destruct (listing_at w top) as [[sd fl]|] eqn:L.
  2:{ unfold listing_at, node_at in L. rewrite He in L. discriminate. }
  destruct (listing_at_inv _ _ _ _ L) as (es' & He' & Hsd & Hfl).
  unfold node_at in He'. rewrite He in He'. injection He' as <-.
  destruct (visit_each (visits k w) w top sd) as [l ok] eqn:V. simpl in *.
  rewrite resolve_app, He in Hf.
  destruct rel as [|x rel]; simpl in Hf.
  - destruct (assoc f es) as [c|] eqn:A; [|discriminate]. injection Hf as ->.
    pose proof (assoc_in_names _ _ _ A) as Hin.
    destruct (node_at_child _ _ _ Ht He Hin) as (_ & Hj & _).
    exists top, sd, fl. split; [now left|]. split; [now rewrite app_nil_r|].
    apply Hfl. split; [exact Hin|].
    unfold isdir_at, node_at. rewrite Hj, resolve_app, He. simpl. now rewrite A.
  - destruct (assoc x es) as [c|] eqn:A; [|discriminate].
    pose proof (assoc_in_names _ _ _ A) as Hin.
    destruct (node_at_child _ _ _ Ht He Hin) as (_ & Hj & _).
    assert (Hc : exists es', c = Dir es').
    { destruct c as [| |es']; [destruct rel; discriminate .. | eauto]. }
    destruct Hc as [es' ->].
    assert (Hx : In x sd).
    { apply Hsd. split; [exact Hin|].
      unfold isdir_at, node_at. rewrite Hj, resolve_app, He. simpl. now rewrite A. }
    assert (Hl : islink_at w (Path.join top x) = false).
    { unfold islink_at, node_at. rewrite Hj, resolve_app, He. simpl. now rewrite A. }
    assert (Hok' : snd (visit_each (visits k w) w top sd) = true) by now rewrite V.
    destruct (visit_each_incl _ _ _ _ _ Hok' Hx Hl) as [Hs Hi].
    destruct (IH (Path.join top x) rel f st d (join_not_empty _ x Ht) Hs)
      as (root & subdirs & files & Hv & Hr & Hff).
    { rewrite Hj, <- app_assoc, resolve_app, He. simpl. now rewrite A. }
    exists root, subdirs, files. repeat split; auto.
    + right. apply Hi in Hv. now rewrite V in Hv.
    + rewrite Hr, Hj, <- app_assoc. reflexivity.
Qed.
End Visits.

(** ** Loops *)

Lemma for_each_post {A} (R : world -> world -> Prop) (l : list A) f
    (Q : A -> world -> Prop) w w' :
  (forall w, R w w) -> (forall w1 w2 w3, R w1 w2 -> R w2 w3 -> R w1 w3) ->
  (forall x, keeps R (f x)) ->
  (forall x w1 w2, Q x w1 -> R w1 w2 -> Q x w2) ->
  (forall x w1 w2, In x l -> R w w1 -> f x w1 = (Ok tt, w2) -> Q x w2) ->
  for_each l f w = (Ok tt, w') -> forall x, In x l -> Q x w'.
Proof.
  intros Rrefl Rtrans Hk Hst. revert w.
  induction l as [|y l IH]; intros w Hstep H x Hx; [destruct Hx|].
  simpl in H. apply bind_inv in H.
  destruct H as [([] & w1 & H1 & H2)|(e & _ & [=])].
  assert (R1 : R w w1) by (eapply Hk; eauto).
  destruct Hx as [->|Hx].
  - eapply Hst.
    + eapply Hstep; [now left | apply Rrefl | exact H1].
    + eapply keeps_for_each; [exact Rrefl | exact Rtrans | | exact H2].
      intros z _. apply Hk.
  - eapply IH; [|exact H2|exact Hx].
    intros z w2 w3 Hz R2 Hf. eapply Hstep; [now right | | exact Hf].
    eapply Rtrans; eauto.
Qed.

(** ** Preparation *)

Lemma prepare_file_sets a m root f w0 w w' p st d :
  touched a m w0 w -> Path.abspath (cwd w0) (root ++ "/" ++ f)%string = p ->
  resolve (fs w0) p = Some (File st d) -> is_source f = true ->
  prepare_file a m root f w = (Ok tt, w') ->
  resolve (fs w') p = Some (File (mkstat (st_mode st) a m) d).
Proof.
  intros T Hp E Hsrc H. destruct T as (C & _ & Hr).
  unfold prepare_file in H. rewrite Hsrc in H.
  specialize (Hr p). rewrite E in Hr. simpl in Hr.
  assert (Hl : islink_at w (root ++ "/" ++ f)%string = false).
  { unfold islink_at, node_at. rewrite C, Hp. now destruct Hr as [->| ->]. }
  rewrite (bind_ok _ _ _ _ _ (eq_refl : os_path_islink _ w = (Ok _, w))), Hl in H.
  cbn [negb] in H. unfold os_utime in H.
  apply bind_inv in H. destruct H as [([] & w1 & H1 & [= <-])|(e & _ & [=])].
  apply update_file_ok in H1. destruct H1 as (st1 & d1 & n & E1 & P & ->).
  unfold node_at in E1. rewrite C, Hp in E1, P. simpl.
  rewrite (resolve_put_same _ _ _ _ P).
  destruct Hr as [Hr|Hr]; rewrite Hr in E1; now injection E1 as <- <-.
Qed.

Lemma touched_done a m w w' p mode d :
  resolve (fs w) p = Some (File (mkstat mode a m) d) -> touched a m w w' ->
  resolve (fs w') p = Some (File (mkstat mode a m) d).
Proof.
  intros E (_ & _ & H). specialize (H p). rewrite E in H. simpl in H. tauto.
Qed.

(** A preparation that succeeds set the two times on every source file
    below the top, and nothing else changed its shape. *)
Lemma prepare_walk_ok a m s w w' :
  s <> "" -> wf_node (fs w) = true ->
  os_walk recursionlimit s
    (fun root subdirs files => for_each files (prepare_file a m root)) w
  = (Ok tt, w') ->
  touched a m w w' /\
  forall rel f st d,
    resolve (fs w) (Path.abspath (cwd w) s ++ rel ++ [f]) = Some (File st d) ->
    is_source f = true ->
    resolve (fs w') (Path.abspath (cwd w) s ++ rel ++ [f])
    = Some (File (mkstat (st_mode st) a m) d).
Proof.
  intros Hs Hwf H.
  set (body := fun (root : string) (subdirs files : list string) =>
                 for_each files (prepare_file a m root)) in *.
  assert (Hb : forall root subdirs files, keeps (touched a m) (body root subdirs files)).
  { intros root subdirs files. apply keeps_for_each.
    - apply touched_refl.
    - apply touched_trans.
    - intros f _. apply prepare_file_touched. }
  split.
  { eapply keeps_walk; [apply touched_refl | apply touched_trans | exact Hb | exact H]. }
  assert (Hov : forall l w1 w2,
            for_each l (on_visit body) w1 = (Ok tt, w2) -> touched a m w1 w2).
  { intros l w1 w2. apply keeps_for_each.
    - apply touched_refl.
    - apply touched_trans.
    - intros [[r0 sd0] fl0] _. exact (Hb r0 sd0 fl0). }
  rewrite (os_walk_visits (touched a m) (fun _ => True) body w) in H.
  - apply bind_inv in H. destruct H as [([] & w1 & F & E)|(e & _ & [=])].
    destruct (snd (visits recursionlimit w s)) eqn:Hok; [|discriminate].
    injection E as <-.
    intros rel f st d Hf Hsrc.
    destruct (visits_complete w Hwf _ _ _ _ _ _ Hs Hok Hf)
      as (root & subdirs & files & Hv & Hr & Hin).
    destruct (visits_sound w Hwf _ _ _ _ _ Hs Hv) as (Hroot & HL & _).
    destruct (listing_at_inv _ _ _ _ HL) as (es & He & _ & Hfl).
    pose proof Hin as Hin0. apply Hfl in Hin. destruct Hin as [Hin _].
    destruct (node_at_child w Hwf _ _ _ Hroot He Hin) as (_ & _ & Hc).
    rewrite app_assoc, <- Hr, <- Hc in *.
    pose proof (for_each_post (touched a m)
      (fst (visits recursionlimit w s)) (on_visit body)
      (fun v w2 => forall f st d, In f (snd v) -> is_source f = true ->
         resolve (fs w) (Path.abspath (cwd w) (fst (fst v) ++ "/" ++ f)%string)
         = Some (File st d) ->
         resolve (fs w2) (Path.abspath (cwd w) (fst (fst v) ++ "/" ++ f)%string)
         = Some (File (mkstat (st_mode st) a m) d))
      w w1 (touched_refl a m) (touched_trans a m)) as Post.
    apply (Post) with (x := (root, subdirs, files)); auto.
    + intros [[r0 sd0] fl0]. exact (Hb r0 sd0 fl0).
    + intros v w2 w3 HQ T f0 st0 d0 Hf0 Hs0 E0.
      eapply touched_done; eauto.
    + intros [[root0 sd0] fl0] w2 w3 Hv0 T0 Hrun f0 st0 d0 Hf0 Hs0 E0.
      simpl in *. unfold body in Hrun.
      pose proof (for_each_post (touched a m) fl0 (prepare_file a m root0)
        (fun f w4 => forall st d, is_source f = true ->
           resolve (fs w) (Path.abspath (cwd w) (root0 ++ "/" ++ f)%string)
           = Some (File st d) ->
           resolve (fs w4) (Path.abspath (cwd w) (root0 ++ "/" ++ f)%string)
           = Some (File (mkstat (st_mode st) a m) d))
        w2 w3 (touched_refl a m) (touched_trans a m)
        (prepare_file_touched a m root0)) as Post'.
      apply Post' with (x := f0); auto.
      * intros f1 w4 w5 HQ T st1 d1 Hs1 E1. eapply touched_done; eauto.
      * intros f1 w4 w5 Hf1 T Hrun1 st1 d1 Hs1 E1.
        eapply prepare_file_sets; [ | reflexivity | exact E1 | exact Hs1 | exact Hrun1].
        eapply touched_trans; eauto.
  - apply touched_refl.
  - apply touched_trans.
  - intros root subdirs files w1 w2 _ _ _. apply Hb.
  - intros top w1 _ T. eapply touched_listing; eauto.
  - intros top name subdirs files w1 _ _ _ T. eapply touched_islink; eauto.
  - auto.
  - exact I.
  - apply touched_refl.
Qed.

Lemma prepare_tree_ok s w w' :
  s <> "" -> wf_node (fs w) = true -> prepare_tree s w = (Ok tt, w') ->
  let m := clock w in
  let a := (clock w - seconds (48 * 3600))%Z in
  touched a m w w' /\
  forall rel f st d,
    resolve (fs w) (Path.abspath (cwd w) s ++ rel ++ [f]) = Some (File st d) ->
    is_source f = true ->
    resolve (fs w') (Path.abspath (cwd w) s ++ rel ++ [f])
    = Some (File (mkstat (st_mode st) a m) d).
Proof.
  intros Hs Hwf H. unfold prepare_tree in H. rewrite reraise_id in H.
  rewrite (bind_ok time_time _ w (clock w) w eq_refl) in H. cbv zeta in H.
  cbv zeta. now apply prepare_walk_ok.
Qed.

(** C2.  After a successful [prepare_tree] on a source root, every regular
    file below the root whose name ends in [.c] or [.h] has the instant the
    preparation read from the clock as its modification time and that
    instant minus 48 hours as its access time, with its content and mode as
    before; every symbolic link, anywhere, is as it was. *)
Theorem prepare_sets_times (w : world) (s : string) (w' : world)
    (Hs : s <> "") (Hwf : wf_node (fs w) = true)
    (H : prepare_tree s w = (Ok tt, w')) :
  (forall rel f st d,
     resolve (fs w) (Path.abspath (cwd w) s ++ rel ++ [f]) = Some (File st d) ->
     is_source f = true ->
     exists st',
       resolve (fs w') (Path.abspath (cwd w) s ++ rel ++ [f]) = Some (File st' d)
       /\ st_mtime st' = clock w
       /\ st_atime st' = (st_mtime st' - seconds (48 * 3600))%Z
       /\ st_mode st' = st_mode st)
  /\ (forall q st to,
        resolve (fs w) q = Some (Link st to) ->
        resolve (fs w') q = Some (Link st to)).
Proof.
  destruct (prepare_tree_ok _ _ _ Hs Hwf H) as [T Hfiles]. split.
  - intros rel f st d Hf Hsrc. eexists. split; [eapply Hfiles; eauto|].
    simpl. auto.
  - intros q st to Hq. destruct T as (_ & _ & Hr). specialize (Hr q).
    rewrite Hq in Hr. exact Hr.
Qed.

Lemma prepare_sets_times_witness :
  exists st',
    resolve (fs (snd (prepare_tree "/s" sample))) (["s"] ++ ["sub"] ++ ["b.c"])
    = Some (File st' "B")
    /\ st_mtime st' = 100%Z
    /\ st_atime st' = (st_mtime st' - seconds (48 * 3600))%Z
    /\ st_mode st' = 420%Z.
Proof.
  apply (proj1 (prepare_sets_times sample "/s" (snd (prepare_tree "/s" sample))
                  ltac:(discriminate) eq_refl ltac:(vm_compute; reflexivity))
               ["sub"] "b.c" (mkstat 420 9 1) "B");
    reflexivity.
Defined.

(** C10.  The preparation reads the clock once, before the walk: every
    [os.utime] call of a successful preparation passes that reading as the
    modification time and that reading minus 48 hours as the access time,
    however far the clock has moved since, and any two source files below
    the root end with the same modification time and the same access
    time. *)
Theorem prepare_times_uniform (w : world) (s : string) (w' : world)
    (Hs : s <> "") (Hwf : wf_node (fs w) = true)
    (H : prepare_tree s w = (Ok tt, w')) :
  (exists T, recorded w w' T /\
     forall e, In e T ->
       exists p, e = EUtime p (clock w - seconds (48 * 3600))%Z (clock w))
  /\ (clock w <= clock w')%Z
  /\ forall rel1 f1 st1 d1 rel2 f2 st2 d2,
       resolve (fs w) (Path.abspath (cwd w) s ++ rel1 ++ [f1]) = Some (File st1 d1) ->
       is_source f1 = true ->
       resolve (fs w) (Path.abspath (cwd w) s ++ rel2 ++ [f2]) = Some (File st2 d2) ->
       is_source f2 = true ->
       exists st1' st2',
         resolve (fs w') (Path.abspath (cwd w) s ++ rel1 ++ [f1]) = Some (File st1' d1)
         /\ resolve (fs w') (Path.abspath (cwd w) s ++ rel2 ++ [f2]) = Some (File st2' d2)
         /\ st_mtime st1' = st_mtime st2' /\ st_atime st1' = st_atime st2'.
Proof.
  destruct (prepare_tree_ok _ _ _ Hs Hwf H) as [T Hfiles]. split; [|split].
  - destruct T as (_ & (T & E & F) & _). exists T. split; [exact E|].
    now apply Forall_forall.
  - apply prepare_tree_extends in H. apply H.
  - intros rel1 f1 st1 d1 rel2 f2 st2 d2 H1 S1 H2 S2.
    eexists _, _. split; [eapply Hfiles; eauto|]. split; [eapply Hfiles; eauto|].
    simpl. auto.
Qed.

Lemma prepare_times_uniform_witness :
  (clock sample <= clock (snd (prepare_tree "/s" sample)))%Z.
Proof.
  apply (prepare_times_uniform sample "/s" (snd (prepare_tree "/s" sample))
           ltac:(discriminate) eq_refl ltac:(vm_compute; reflexivity)).
Defined.

Example prepare_sample :
  let w' := snd (prepare_tree "/s" sample) in
  clock w' = 104%Z
  /\ resolve (fs w') ["s"; "main.c"]
     = Some (File (mkstat 420 (100 - 172800000000) 100) "M")
  /\ resolve (fs w') ["s"; "sub"; "ro.h"]
     = Some (File (mkstat 292 (100 - 172800000000) 100) "RO")
  /\ resolve (fs w') ["s"; "README.md"] = Some (regular 10 5 "R")
  /\ resolve (fs w') ["s"; "ln.c"] = Some (Link (mkstat 511 9 1) ToFile).
Proof. cbv zeta. repeat split; vm_compute; reflexivity. Qed.

(** ** Collection *)

Lemma diverge_app_l p q a : diverge p q = true -> diverge (p ++ a) q = true.
Proof.
  intros H. rewrite <- (app_nil_r q). now apply diverge_app.
Qed.

Lemma makedirs_new n p n' q v :
  makedirs_node n p = inr n' -> resolve n' q = Some v ->
  (exists es, v = Dir es) \/ resolve n q = Some v.
Proof.
  revert n n' q. induction p as [|x r IH]; intros n n' q; simpl; [discriminate|].
  destruct n; try discriminate.
  destruct (assoc x entries) as [c|] eqn:E.
  - destruct (makedirs_node c r) as [e|c'] eqn:P; [discriminate|].
    intros [= <-]. destruct q as [|y q]; simpl.
    + intros [= <-]. left. eauto.
    + destruct (string_dec y x) as [->|Hne].
      * rewrite assoc_set_entry_same, E. intros H. exact (IH _ _ _ P H).
      * rewrite assoc_set_entry_other by assumption. auto.
  - intros [= <-]. destruct q as [|y q]; simpl.
    + intros [= <-]. left. eauto.
    + destruct (string_dec y x) as [->|Hne].
      * rewrite assoc_set_entry_same. intros H. left.
        eapply resolve_in_new_dirs; eauto.
      * rewrite assoc_set_entry_other by assumption. auto.
Qed.

Lemma collecting_refl w0 S D w : collecting w0 S D w w.
Proof.
  split; [apply extends_refl|]. split; [auto|]. split; [|auto].
  exists []. split; [unfold recorded; now rewrite app_nil_r | intros s d []].
Qed.

Lemma collecting_trans w0 S D w1 w2 w3 :
  collecting w0 S D w1 w2 -> collecting w0 S D w2 w3 -> collecting w0 S D w1 w3.
Proof.
  intros (E1 & F1 & (T1 & R1 & U1) & J1 & P1) (E2 & F2 & (T2 & R2 & U2) & J2 & P2).
  split; [eapply extends_trans; eauto|]. split; [|split; [|split]].
  - intros q Hq. now rewrite F2, F1.
  - exists (T1 ++ T2). unfold recorded in *. split; [now rewrite R2, R1, app_assoc|].
    intros s d H. apply in_app_or in H. destruct H; eauto.
  - auto.
  - eauto.
Qed.

(** A successful copy of a used file to a given place. *)
Lemma copy2_into p dst w w' f ps Dd st d :
  Path.abspath (cwd w) p = ps -> Path.basename p = f -> Path.valid_name f = true ->
  Path.abspath (cwd w) dst = Dd -> dst <> "" ->
  resolve (fs w) ps = Some (File st d) -> (st_mtime st < st_atime st)%Z ->
  shutil_copy2 p dst w = (Ok tt, w') ->
  exists pd,
    ((pd = Dd ++ [f] /\ is_dir (resolve (fs w) Dd) = true)
     \/ (pd = Dd /\ is_dir (resolve (fs w) Dd) = false)) /\
    is_dir (resolve (fs w) pd) = false /\
    put (fs w) pd (File st d) = Some (fs w') /\
    cwd w' = cwd w /\
    trace w' = trace w ++ [EUtime pd (st_atime st) (st_mtime st); ECopy ps pd].
Proof.
  intros Hps Hf Hv HD Hne E Hused H.
  destruct (shutil_copy2_ok _ _ _ _ H _ _ _ eq_refl eq_refl eq_refl)
    as (st0 & d0 & st1 & n1 & E0 & _ & _ & Hst & Hd & P & C & _ & T).
  rewrite Hps, E in E0. injection E0 as <- <-.
  destruct Hst as [(Hle & _)|(_ & -> & ->)]; [lia|].
  rewrite Hps, Hf in *.
  exists (Path.abspath (cwd w)
            (if isdir_at w dst then Path.join dst f else dst)).
  repeat split; auto.
  destruct (isdir_at w dst) eqn:I.
  - left. rewrite (abspath_join _ _ _ Hne Hv), HD in *. split; [reflexivity|].
    change (Dd ++ [f]) with (Dd ++ f :: []) in P.
    now apply put_prefix_dir in P.
  - right. rewrite HD. split; [reflexivity|].
    unfold isdir_at, node_at in I. rewrite HD in I.
    destruct (resolve (fs w) Dd) as [[| |]|]; simpl; auto; discriminate.
Qed.

Lemma for_each_ok {A} (R : world -> world -> Prop) (w0 : world) (l : list A) f
    (Q : A -> world -> Prop) :
  (forall w, R w w) -> (forall w1 w2 w3, R w1 w2 -> R w2 w3 -> R w1 w3) ->
  (forall x w1 w2, In x l -> R w0 w1 -> f x w1 = (Ok tt, w2) -> R w1 w2) ->
  (forall x w1 w2, Q x w1 -> R w1 w2 -> Q x w2) ->
  (forall x w1 w2, In x l -> R w0 w1 -> f x w1 = (Ok tt, w2) -> Q x w2) ->
  forall w w', R w0 w -> for_each l f w = (Ok tt, w') ->
  R w w' /\ forall x, In x l -> Q x w'.
Proof.
  intros Rrefl Rtrans.
  induction l as [|y l IH]; intros Hk Hst Hstep w w' Hw H.
  - injection H as <-. split; [apply Rrefl | intros x []].
  - simpl in H. apply bind_inv in H.
    destruct H as [([] & w1 & H1 & H2)|(e & _ & [=])].
    assert (R1 : R w w1) by (eapply Hk; [now left | exact Hw | exact H1]).
    destruct (IH (fun x w1 w2 Hx => Hk x w1 w2 (or_intror Hx)) Hst
                 (fun x w1 w2 Hx => Hstep x w1 w2 (or_intror Hx))
                 w1 w' (Rtrans _ _ _ Hw R1) H2) as [R2 HQ].
    split; [eapply Rtrans; eauto|].
    intros x [->|Hx]; [|now apply HQ].
    eapply Hst; [|exact R2]. eapply Hstep; [now left | exact Hw | exact H1].
Qed.
Section Collect.
Variable w0 : world.
Variables src_s dst_s : string.
Variables S D : path.
Hypothesis HS : Path.abspath (cwd w0) src_s = S.
Hypothesis HD : Path.abspath (cwd w0) dst_s = D.
Hypothesis Hdst : dst_s <> "".
Hypothesis Hdiv : diverge S D = true.

Lemma diverge_dst_src a b : diverge (D ++ a) (S ++ b) = true.
Proof. apply diverge_app. now rewrite diverge_sym. Qed.

(** A successful [parent_copy] of a used file at [rel/f] below the source
    root: the directories [D/rel] are made when nothing is there, and the
    file is put at [D/rel/f], or at [D/rel] itself when that is not a
    directory. *)
Lemma parent_copy_effect w w' root rel f st d :
  cwd w = cwd w0 -> root <> "" ->
  Path.abspath (cwd w0) root = S ++ rel -> valid rel -> Path.valid_name f = true ->
  resolve (fs w) (S ++ rel ++ [f]) = Some (File st d) ->
  (st_mtime st < st_atime st)%Z ->
  parent_copy (root ++ "/" ++ f) dst_s src_s w = (Ok tt, w') ->
  exists n1 pd T,
    ((n1 = fs w /\ (rel <> [] -> resolve (fs w) (D ++ rel) <> None))
     \/ makedirs_node (fs w) (D ++ rel) = inr n1) /\
    ((pd = D ++ rel ++ [f] /\ is_dir (resolve n1 (D ++ rel)) = true)
     \/ (pd = D ++ rel /\ is_dir (resolve n1 (D ++ rel)) = false)) /\
    is_dir (resolve n1 pd) = false /\
    put n1 pd (File st d) = Some (fs w') /\
    cwd w' = cwd w /\
    trace w' = trace w ++ T /\
    In (ECopy (S ++ rel ++ [f]) pd) T /\
    forall s t, In (ECopy s t) T -> s = S ++ rel ++ [f].
Proof.
  intros C Hroot Hr Hrel Hf E Hused H.
  destruct (valid_name_inv _ Hf) as (Hslash & _).
  assert (Hps : Path.abspath (cwd w) (root ++ "/" ++ f)%string = S ++ rel ++ [f])
    by (rewrite C, (abspath_child _ _ _ Hroot Hf), Hr, <- app_assoc; reflexivity).
  assert (Hpd : parent_dirs_of w (root ++ "/" ++ f)%string src_s = Path.join_slash rel).
  { unfold parent_dirs_of.
    rewrite (relpath_below _ _ _ (rel ++ [f])).
    - now rewrite (split_relative _ _ Hrel Hf).
    - rewrite Hps, C, HS. reflexivity.
    - now destruct rel. }
  apply parent_copy_ok in H. rewrite Hpd in H.
  destruct H as [[He H]|[Hne (w1 & Hw1 & H)]].
  - (* the file is at the root of the tree *)
    assert (rel = []) as -> by (now apply join_slash_empty).
    cbn [app] in *. rewrite !app_nil_r in *.
    destruct (copy2_into _ _ _ _ _ _ _ _ _ Hps (basename_child _ _ Hslash) Hf
                (eq_trans (f_equal (fun c => Path.abspath c dst_s) C) HD)
                Hdst E Hused H) as (pd & Hcase & Hd & P & C' & T).
    exists (fs w), pd, [EUtime pd (st_atime st) (st_mtime st); ECopy (S ++ [f]) pd].
    split; [left; split; [reflexivity | congruence]|].
    split; [exact Hcase|]. split; [exact Hd|]. split; [exact P|].
    split; [exact C'|]. split; [exact T|]. split; [simpl; auto|].
    intros s t [?|[[= <- _]|[]]]; [discriminate | reflexivity].
  - (* the file is in a subdirectory *)
    assert (Hrne : rel <> []) by (intros ->; apply Hne; reflexivity).
    assert (Hd2 : Path.abspath (cwd w) (dst_s ++ "/" ++ Path.join_slash rel)%string
                  = D ++ rel)
      by (rewrite C, (abspath_below _ _ _ Hdst Hrel Hrne), HD; reflexivity).
    assert (Hdne : (dst_s ++ "/" ++ Path.join_slash rel)%string <> "")
      by (destruct dst_s; [congruence | discriminate]).
    destruct Hw1 as [[Hex ->]|[Hex Hmk]].
    + destruct (copy2_into _ _ _ _ _ _ _ _ _ Hps (basename_child _ _ Hslash) Hf
                  Hd2 Hdne E Hused H) as (pd & Hcase & Hd & P & C' & T).
      exists (fs w), pd, [EUtime pd (st_atime st) (st_mtime st); ECopy (S ++ rel ++ [f]) pd].
      split.
      { left. split; [reflexivity|]. intros _ Hnone.
        unfold exists_at, node_at in Hex. rewrite Hd2, Hnone in Hex. discriminate. }
      split.
      { destruct Hcase as [[-> Hc]|[-> Hc]]; [left | right]; split; auto.
        now rewrite <- app_assoc. }
      split; [exact Hd|]. split; [exact P|].
      split; [exact C'|]. split; [exact T|]. split; [simpl; auto|].
      intros s t [?|[[= <- _]|[]]]; [discriminate | reflexivity].
    + unfold os_makedirs in Hmk. rewrite Hd2 in Hmk.
      destruct (makedirs_node (fs w) (D ++ rel)) as [e|n] eqn:Mk; [discriminate|].
      injection Hmk as <-.
      assert (E1 : resolve n (S ++ rel ++ [f]) = Some (File st d)).
      { rewrite (makedirs_diverge _ _ _ _ Mk); [exact E|].
        rewrite <- (app_nil_r (D ++ rel)), <- app_assoc. apply diverge_dst_src. }
      destruct (copy2_into (root ++ "/" ++ f)%string
                  (dst_s ++ "/" ++ Path.join_slash rel)%string
                  (log (EMakedirs (D ++ rel) 493) (tick (set_fs n w))) w' f
                  (S ++ rel ++ [f]) (D ++ rel) st d
                  Hps (basename_child _ _ Hslash) Hf
                  Hd2 Hdne E1 Hused H) as (pd & Hcase & Hd & P & C' & T).
      simpl in *.
      exists n, pd, [EMakedirs (D ++ rel) 493;
                     EUtime pd (st_atime st) (st_mtime st); ECopy (S ++ rel ++ [f]) pd].
      split; [right; reflexivity|].
      split.
      { destruct Hcase as [[-> Hc]|[-> Hc]]; [left | right]; split; auto.
        now rewrite <- app_assoc. }
      split; [exact Hd|]. split; [exact P|].
      split; [exact C'|]. split; [rewrite T, <- app_assoc; reflexivity|].
      split; [simpl; auto|].
      intros s t [?|[?|[[= <- _]|[]]]]; [discriminate | discriminate | reflexivity].
Qed.
Hypothesis Hwf : wf_node (fs w0) = true.

Lemma collecting_cwd w : collecting w0 S D w0 w -> cwd w = cwd w0.
Proof. intros (E & _). apply E. Qed.

Lemma collecting_source w q :
  collecting w0 S D w0 w -> resolve (fs w) (S ++ q) = resolve (fs w0) (S ++ q).
Proof.
  intros (_ & F & _). apply F.
  rewrite <- (app_nil_r D). apply diverge_dst_src.
Qed.

(** One entry of a directory at [rel] below the source root. *)
Lemma collect_file_step w w' root rel f :
  collecting w0 S D w0 w -> root <> "" ->
  Path.abspath (cwd w0) root = S ++ rel -> valid rel -> Path.valid_name f = true ->
  collect_file src_s dst_s root f w = (Ok tt, w') ->
  collecting w0 S D w w' /\
  forall st d,
    resolve (fs w0) (S ++ rel ++ [f]) = Some (File st d) ->
    is_source f = true -> (st_mtime st < st_atime st)%Z ->
    (exists T pd, recorded w w' T /\ In (ECopy (S ++ rel ++ [f]) pd) T) /\
    (clear_way w0 S D w -> resolve (fs w') (D ++ rel ++ [f]) = Some (File st d)).
Proof.
  intros Hw Hroot Hr Hrel Hf H.
  pose proof (collecting_cwd _ Hw) as C.
  assert (Hps : Path.abspath (cwd w) (root ++ "/" ++ f)%string = S ++ rel ++ [f])
    by (rewrite C, (abspath_child _ _ _ Hroot Hf), Hr, <- app_assoc; reflexivity).
  pose proof (collecting_source w (rel ++ [f]) Hw) as Hsame.
  eapply collect_file_inv in H; [|reflexivity].
  destruct H as [(_ & -> & Hskip)|[(_ & _ & _ & [=] & _)|(Hsrc & Hl & (st & d & E & Hu) & H)]].
  - split; [apply collecting_refl|].
    intros st d E Hsrc Hu. exfalso.
    unfold islink_at, node_at in Hskip. rewrite Hps, Hsame, E in Hskip.
    destruct Hskip as [Hn|[Hn|(st' & d' & [= <- <-] & Hle)]];
      [congruence | discriminate | lia].
  - unfold node_at in E. rewrite Hps in E.
    destruct (parent_copy_effect _ _ _ _ _ _ _ C Hroot Hr Hrel Hf E Hu H)
      as (n1 & pd & T & Hn1 & Hpd & Hd & P & C' & HT & Hin & Honly).
    assert (Hframe : forall q, diverge D q = true -> resolve n1 q = resolve (fs w) q).
    { intros q Hq. destruct Hn1 as [[-> _]|Mk]; [reflexivity|].
      eapply makedirs_diverge; [exact Mk | now apply diverge_app_l]. }
    assert (Hpdd : exists x, pd = D ++ x).
    { destruct Hpd as [[-> _]|[-> _]]; eauto. }
    assert (Hdirs : is_dir (resolve (fs w0) (S ++ rel)) = true).
    { rewrite Hsame in E. rewrite app_assoc in E.
      destruct (resolve_continues _ _ _ _ E) as [es ->]; [discriminate | reflexivity]. }
    assert (Hclear : clear_way w0 S D w -> pd = D ++ rel ++ [f]).
    { intros J. destruct Hpd as [[-> _]|[-> Hnd]]; [reflexivity|]. exfalso.
      specialize (J rel Hdirs).
      destruct Hn1 as [[-> Hex]|Mk].
      - destruct (resolve (fs w) (D ++ rel)) as [[| |]|] eqn:Er;
          try contradiction; [discriminate|].
        apply Hex; [exact J | reflexivity].
      - rewrite (makedirs_made _ _ _ Mk) in Hnd. discriminate. }
    split; [split; [|split; [|split; [|split]]]|].
    + eapply parent_copy_extends; eauto.
    + intros q Hq. destruct Hpdd as [x ->].
      rewrite (resolve_put_diverge _ _ _ _ _ P (diverge_app_l _ _ _ Hq)).
      now apply Hframe.
    + exists T. split; [exact HT|]. intros s t Hst. rewrite (Honly _ _ Hst).
      exists rel, f, st, d. rewrite <- Hsame. auto.
    + intros J rel' Hdir'. specialize (Hclear J). subst pd.
      pose proof (J rel' Hdir') as J'.
      destruct (resolve (fs w) (D ++ rel')) as [v|] eqn:Ev.
      * destruct v as [| |es]; try contradiction.
        assert (D1 : is_dir (resolve n1 (D ++ rel')) = true).
        { destruct Hn1 as [[-> _]|Mk]; [now rewrite Ev|].
          exact (makedirs_grows _ _ _ _ _ Mk Ev). }
        pose proof (put_file_dir _ _ _ _ _ _ P Hd D1) as D2.
        destruct (resolve (fs w') (D ++ rel')) as [[| |]|]; simpl in D2;
          try discriminate; exact I.
      * assert (Hne : D ++ rel' <> D ++ rel ++ [f]).
        { intros Heq. apply app_inv_head in Heq. subst rel'.
          rewrite <- Hsame, E in Hdir'. discriminate. }
        destruct (resolve n1 (D ++ rel')) as [v|] eqn:E1.
        -- assert (D1 : is_dir (Some v) = true).
           { destruct Hn1 as [[-> _]|Mk]; [congruence|].
             destruct (makedirs_new _ _ _ _ _ Mk E1) as [[es ->]|Hc];
               [reflexivity | congruence]. }
           rewrite <- E1 in D1.
           pose proof (put_file_dir _ _ _ _ _ _ P Hd D1) as D2.
           destruct (resolve (fs w') (D ++ rel')) as [[| |]|]; simpl in D2;
             try discriminate; exact I.
        -- erewrite put_file_frame; [rewrite E1; exact J' | exact P | exact Hd
             | exact Hne | now rewrite E1].
    + intros r st' d' E0 Er.
      assert (E1 : resolve n1 (D ++ r) = Some (File st' d')).
      { destruct Hn1 as [[-> _]|Mk]; [exact Er|].
        exact (makedirs_grows _ _ _ _ _ Mk Er). }
      destruct (list_eq_dec string_dec (D ++ r) pd) as [Heq|Hne].
      * destruct Hpd as [[-> _]|[-> _]]; apply app_inv_head in Heq; subst r.
        -- rewrite <- Hsame, E in E0. injection E0 as <- <-.
           eapply resolve_put_same; eauto.
        -- rewrite E0 in Hdirs. discriminate.
      * erewrite put_file_frame; [exact E1 | exact P | exact Hd | exact Hne
          | now rewrite E1].
    + intros st' d' E0 _ _. rewrite <- Hsame, E in E0. injection E0 as <- <-.
      split; [exists T, pd; auto|].
      intros J. rewrite (Hclear J) in P. eapply resolve_put_same; eauto.
Qed.

Lemma inside_entry root rel es x :
  root <> "" -> Path.abspath (cwd w0) root = S ++ rel ->
  resolve (fs w0) (S ++ rel) = Some (Dir es) -> In x (map fst es) ->
  Path.valid_name x = true /\
  Path.abspath (cwd w0) (Path.join root x) = S ++ rel ++ [x] /\
  Path.abspath (cwd w0) (root ++ "/" ++ x)%string = S ++ rel ++ [x].
Proof.
  intros Hroot Hr He Hx.
  assert (Hn : node_at w0 root = Some (Dir es)) by (unfold node_at; now rewrite Hr).
  destruct (node_at_child w0 Hwf _ _ _ Hroot Hn Hx) as (Hv & Hj & Hc).
  rewrite Hj, Hc, Hr, <- app_assoc. auto.
Qed.

Lemma collecting_listing top w :
  inside_src w0 S top -> collecting w0 S D w0 w ->
  listing_at w top = listing_at w0 top.
Proof.
  intros (Ht & rel & Hr & Hrel) Hw.
  pose proof (collecting_cwd _ Hw) as C.
  unfold listing_at, node_at. rewrite C, Hr, (collecting_source _ _ Hw).
  destruct (resolve (fs w0) (S ++ rel)) as [[| |es]|] eqn:E; try reflexivity.
  assert (Hd : forall x, In x (map fst es) ->
            isdir_at w (Path.join top x) = isdir_at w0 (Path.join top x)).
  { intros x Hx. destruct (inside_entry _ _ _ _ Ht Hr E Hx) as (_ & Hj & _).
    unfold isdir_at, node_at. now rewrite C, Hj, (collecting_source _ _ Hw). }
  f_equal. f_equal; apply filter_ext_in; intros x Hx; now rewrite (Hd x Hx).
Qed.

Lemma listing_subdir top subdirs files name :
  inside_src w0 S top -> listing_at w0 top = Some (subdirs, files) ->
  In name subdirs ->
  exists rel, Path.abspath (cwd w0) top = S ++ rel /\ valid (rel ++ [name]) /\
    Path.abspath (cwd w0) (Path.join top name) = S ++ rel ++ [name].
Proof.
  intros (Ht & rel & Hr & Hrel) L Hn.
  destruct (listing_at_inv _ _ _ _ L) as (es & He & Hsd & _).
  unfold node_at in He. rewrite Hr in He.
  apply Hsd in Hn. destruct Hn as [Hn _].
  destruct (inside_entry _ _ _ _ Ht Hr He Hn) as (Hv & Hj & _).
  exists rel. split; [exact Hr|]. split; [|exact Hj].
  apply Forall_app. split; [exact Hrel | constructor; [exact Hv | constructor]].
Qed.

Lemma collecting_islink top name subdirs files w :
  inside_src w0 S top -> listing_at w0 top = Some (subdirs, files) ->
  In name subdirs -> collecting w0 S D w0 w ->
  islink_at w (Path.join top name) = islink_at w0 (Path.join top name).
Proof.
  intros Hin L Hn Hw.
  destruct (listing_subdir _ _ _ _ Hin L Hn) as (rel & _ & _ & Hj).
  unfold islink_at, node_at.
  now rewrite (collecting_cwd _ Hw), Hj, (collecting_source _ _ Hw).
Qed.

Lemma inside_src_join top name subdirs files :
  inside_src w0 S top -> listing_at w0 top = Some (subdirs, files) ->
  In name subdirs -> islink_at w0 (Path.join top name) = false ->
  inside_src w0 S (Path.join top name).
Proof.
  intros Hin L Hn _.
  destruct (listing_subdir _ _ _ _ Hin L Hn) as (rel & _ & Hv & Hj).
  split; [apply join_not_empty; apply Hin|].
  exists (rel ++ [name]). now rewrite Hj.
Qed.

Lemma collected_stable r st d w1 w2 :
  resolve (fs w0) (S ++ r) = Some (File st d) ->
  collected w0 S D r w1 -> collecting w0 S D w1 w2 -> collected w0 S D r w2.
Proof.
  intros E [(T & pd & HT & Hin) Hplace] (_ & _ & (T' & HT' & _) & _ & Hkeep).
  split.
  - exists (T ++ T'), pd. unfold recorded in *. split.
    + now rewrite HT', HT, app_assoc.
    + apply in_or_app. now left.
  - intros J. rewrite E. apply Hkeep; [exact E|]. rewrite <- E. now apply Hplace.
Qed.

(** One round of the walk: the entries of the directory [root]. *)
Lemma collect_round root subdirs files w w' :
  inside_src w0 S root -> listing_at w0 root = Some (subdirs, files) ->
  collecting w0 S D w0 w ->
  for_each files (collect_file src_s dst_s root) w = (Ok tt, w') ->
  collecting w0 S D w w' /\
  forall f, In f files ->
    forall rel st d,
      Path.abspath (cwd w0) root = S ++ rel ->
      resolve (fs w0) (S ++ rel ++ [f]) = Some (File st d) ->
      is_source f = true -> (st_mtime st < st_atime st)%Z ->
      collected w0 S D (rel ++ [f]) w'.
Proof.
  intros (Hroot & rel0 & Hr0 & Hrel0) L Hw H.
  destruct (listing_at_inv _ _ _ _ L) as (es & He & _ & Hfl).
  unfold node_at in He. rewrite Hr0 in He.
  assert (Hvalid : forall f, In f files -> Path.valid_name f = true).
  { intros f Hf. apply Hfl in Hf. destruct Hf as [Hf _].
    now destruct (inside_entry _ _ _ _ Hroot Hr0 He Hf). }
  eapply (for_each_ok (collecting w0 S D) w0 files (collect_file src_s dst_s root)
            (fun f w2 => forall rel st d,
               Path.abspath (cwd w0) root = S ++ rel ->
               resolve (fs w0) (S ++ rel ++ [f]) = Some (File st d) ->
               is_source f = true -> (st_mtime st < st_atime st)%Z ->
               collected w0 S D (rel ++ [f]) w2));
    [apply collecting_refl | apply collecting_trans | | | | exact Hw | exact H].
  - intros f w1 w2 Hf Hw1 Hrun.
    now destruct (collect_file_step _ _ _ _ _ Hw1 Hroot Hr0 Hrel0 (Hvalid f Hf) Hrun).
  - intros f w1 w2 HQ Hstep rel st d Hr E Hs Hu.
    eapply collected_stable; [exact E | eapply HQ; eauto | exact Hstep].
  - intros f w1 w2 Hf Hw1 Hrun rel st d Hr E Hs Hu.
    assert (rel = rel0) as -> by (rewrite Hr0 in Hr; now apply app_inv_head in Hr).
    destruct (collect_file_step _ _ _ _ _ Hw1 Hroot Hr0 Hrel0 (Hvalid f Hf) Hrun)
      as [_ Hpost].
    destruct (Hpost st d E Hs Hu) as [(T & pd & HT & Hin) Hplace].
    destruct Hw1 as (_ & _ & (T1 & HT1 & _) & J1 & _).
    split.
    + exists (T1 ++ T), pd. unfold recorded in *. split.
      * now rewrite HT, HT1, app_assoc.
      * apply in_or_app. now right.
    + intros J. rewrite E. apply Hplace. now apply J1.
Qed.

(** The whole walk of a collection that succeeds. *)
Lemma collect_walk w' :
  src_s <> "" ->
  os_walk recursionlimit src_s
    (fun root subdirs files => for_each files (collect_file src_s dst_s root)) w0
  = (Ok tt, w') ->
  collecting w0 S D w0 w' /\
  forall rel f st d,
    resolve (fs w0) (S ++ rel ++ [f]) = Some (File st d) ->
    is_source f = true -> (st_mtime st < st_atime st)%Z ->
    collected w0 S D (rel ++ [f]) w'.
Proof.
  intros Hsrc H.
  set (body := fun (root : string) (subdirs files : list string) =>
                 for_each files (collect_file src_s dst_s root)) in *.
  assert (Hin0 : inside_src w0 S src_s).
  { split; [exact Hsrc|]. exists []. rewrite app_nil_r. split; [exact HS | constructor]. }
  assert (Hb : forall root subdirs files w w1,
            inside_src w0 S root -> listing_at w0 root = Some (subdirs, files) ->
            collecting w0 S D w0 w -> body root subdirs files w = (Ok tt, w1) ->
            collecting w0 S D w w1).
  { intros root subdirs files w w1 Hi L Hw Hrun.
    now destruct (collect_round _ _ _ _ _ Hi L Hw Hrun). }
  rewrite (os_walk_visits (collecting w0 S D) (inside_src w0 S) body w0
             (collecting_refl w0 S D) (collecting_trans w0 S D) Hb
             collecting_listing collecting_islink inside_src_join
             _ _ _ Hin0 (collecting_refl w0 S D w0)) in H.
  apply bind_inv in H. destruct H as [([] & w1 & F & E)|(e & _ & [=])].
  destruct (snd (visits recursionlimit w0 src_s)) eqn:Hok; [|discriminate].
  injection E as <-.
  pose proof (fun r s f => visits_inside (inside_src w0 S) w0 inside_src_join
                             recursionlimit src_s r s f Hin0) as Hvi.
  destruct (for_each_ok (collecting w0 S D) w0
              (fst (visits recursionlimit w0 src_s)) (on_visit body)
              (fun v w2 => forall f, In f (snd v) -> forall rel st d,
                 Path.abspath (cwd w0) (fst (fst v)) = S ++ rel ->
                 resolve (fs w0) (S ++ rel ++ [f]) = Some (File st d) ->
                 is_source f = true -> (st_mtime st < st_atime st)%Z ->
                 collected w0 S D (rel ++ [f]) w2)
              (collecting_refl w0 S D) (collecting_trans w0 S D))
    with (w := w0) (w' := w1) as [Hc Hpost]; [ | | | apply collecting_refl | exact F | ].
  - intros [[root sd] fl] w2 w3 Hv Hw2 Hrun.
    destruct (Hvi _ _ _ Hv) as [Hi L]. exact (Hb _ _ _ _ _ Hi L Hw2 Hrun).
  - intros v w2 w3 HQ Hstep f Hf rel st d Hr E Hs Hu.
    eapply collected_stable; [exact E | eapply HQ; eauto | exact Hstep].
  - intros [[root sd] fl] w2 w3 Hv Hw2 Hrun f Hf rel st d Hr E Hs Hu.
    destruct (Hvi _ _ _ Hv) as [Hi L]. simpl in *.
    destruct (collect_round _ _ _ _ _ Hi L Hw2 Hrun) as [_ Hq].
    eapply Hq; eauto.
  - split; [exact Hc|].
    intros rel f st d E Hs Hu.
    destruct (visits_complete w0 Hwf recursionlimit src_s rel f st d Hsrc Hok)
      as (root & sd & fl & Hv & Hr & Hf); [now rewrite HS|].
    rewrite HS in Hr.
    exact (Hpost (root, sd, fl) Hv f Hf rel st d Hr E Hs Hu).
Qed.

End Collect.

Lemma collect_tree_ok s d w w' :
  valid (cwd w) -> wf_node (fs w) = true ->
  diverge (Path.abspath (cwd w) s) (Path.abspath (cwd w) d) = true ->
  collect_tree s d w = (Ok tt, w') ->
  collecting w (Path.abspath (cwd w) s) (Path.abspath (cwd w) d) w w' /\
  forall rel f st data,
    resolve (fs w) (Path.abspath (cwd w) s ++ rel ++ [f]) = Some (File st data) ->
    is_source f = true -> (st_mtime st < st_atime st)%Z ->
    collected w (Path.abspath (cwd w) s) (Path.abspath (cwd w) d) (rel ++ [f]) w'.
Proof.
  intros Hcwd Hwf Hdiv H. unfold collect_tree in H. rewrite reraise_id in H.
  rewrite (bind_ok (os_path_abspath s) _ w _ w eq_refl) in H.
  rewrite (bind_ok (os_path_abspath d) _ w _ w eq_refl) in H.
  eapply collect_walk; [ | | | exact Hdiv | exact Hwf | | exact H].
  - apply abspath_render. now apply abspath_valid.
  - apply abspath_render. now apply abspath_valid.
  - apply render_not_empty.
  - apply render_not_empty.
Qed.

(** C1.  When a collection from a source tree into a destination apart
    from it runs to its end, the copies it made are copies of exactly the
    used files: an entry [f] of a directory at or below the source root
    was copied if and only if [f] ends in [.c] or [.h], the entry is a
    regular file (not a symbolic link, not a directory) and its access time
    is strictly after its modification time.  When no file of the
    destination stands where the source has a directory, each of these
    copies is in the destination at the path the file has in the source. *)
Theorem collect_copies_exactly_used (w : world) (s d : string) (w' : world)
    (Hcwd : valid (cwd w)) (Hwf : wf_node (fs w) = true)
    (Hapart : diverge (Path.abspath (cwd w) s) (Path.abspath (cwd w) d) = true)
    (H : collect_tree s d w = (Ok tt, w')) :
  exists T, recorded w w' T /\
    forall rel f node,
      resolve (fs w) (Path.abspath (cwd w) s ++ rel ++ [f]) = Some node ->
      ((exists pd, In (ECopy (Path.abspath (cwd w) s ++ rel ++ [f]) pd) T)
       <-> (is_source f = true /\
            exists st data, node = File st data /\ (st_mtime st < st_atime st)%Z))
      /\ (is_source f = true ->
          (exists st data, node = File st data /\ (st_mtime st < st_atime st)%Z) ->
          clear_way w (Path.abspath (cwd w) s) (Path.abspath (cwd w) d) w ->
          resolve (fs w') (Path.abspath (cwd w) d ++ rel ++ [f]) = Some node).
Proof.
  destruct (collect_tree_ok _ _ _ _ Hcwd Hwf Hapart H) as [Hc Hused].
  destruct Hc as (_ & _ & (T & HT & Honly) & _).
  exists T. split; [exact HT|].
  intros rel f node E. split; [split|].
  - intros [pd Hin]. destruct (Honly _ _ Hin) as (rel' & f' & st & data & Hp & Hs & E' & Hu).
    apply app_inv_head in Hp. apply app_inj_tail in Hp. destruct Hp as [<- <-].
    split; [exact Hs|]. exists st, data. split; [congruence | exact Hu].
  - intros (Hs & st & data & -> & Hu).
    destruct (Hused rel f st data E Hs Hu) as [(T' & pd & HT' & Hin) _].
    unfold recorded in *. rewrite HT in HT'. apply app_inv_head in HT'. subst T'.
    now exists pd.
  - intros Hs (st & data & -> & Hu) J.
    destruct (Hused rel f st data E Hs Hu) as [_ Hplace].
    rewrite (Hplace J). exact E.
Qed.

Lemma collect_copies_exactly_used_witness :
  exists T, recorded sample (snd (collect_tree "/s" "/out" sample)) T.
Proof.
  destruct (collect_copies_exactly_used sample "/s" "/out"
              (snd (collect_tree "/s" "/out" sample))
              (Forall_nil _) eq_refl eq_refl ltac:(vm_compute; reflexivity))
    as (T & HT & _).
  exists T. exact HT.
Defined.

Example collect_sample :
  let w' := snd (collect_tree "/s" "/out" sample) in
  trace w' = [EUtime ["out"; "main.c"] 10 5;
              ECopy ["s"; "main.c"] ["out"; "main.c"];
              EMakedirs ["out"; "sub"] 493;
              EUtime ["out"; "sub"; "b.c"] 9 1;
              ECopy ["s"; "sub"; "b.c"] ["out"; "sub"; "b.c"];
              EUtime ["out"; "sub"; "ro.h"] 9 1;
              ECopy ["s"; "sub"; "ro.h"] ["out"; "sub"; "ro.h"]]
  /\ resolve (fs w') ["out"; "main.c"] = Some (regular 10 5 "M")
  /\ resolve (fs w') ["out"; "README.md"] = None
  /\ resolve (fs w') ["out"; "unused.h"] = None
  /\ resolve (fs w') ["out"; "ln.c"] = None.
Proof. cbv zeta. repeat split; vm_compute; reflexivity. Qed.

(** ** Collecting again *)

Lemma read_file_run s w st d :
  node_at w s = Some (File st d) -> (st_mtime st < st_atime st)%Z ->
  read_file s w = if owner_can_read st then (Ok d, tick w)
                  else (Raise (oserror EACCES s), w).
Proof.
  intros E Hu. unfold read_file. rewrite E.
  destruct (owner_can_read st); [|reflexivity].
  apply Z.leb_gt in Hu. now rewrite Hu.
Qed.

Lemma write_file_run s d w st0 d0 :
  node_at w s = Some (File st0 d0) ->
  write_file s d w
  = if owner_can_write st0 then
      match put (fs w) (Path.abspath (cwd w) s)
                (File (mkstat (st_mode st0) (st_atime st0) (clock w)) d) with
      | Some n => (Ok tt, tick (set_fs n w))
      | None => (Raise (oserror ENOENT s), w)
      end
    else (Raise (oserror EACCES s), w).
Proof. intros E. unfold write_file. now rewrite E. Qed.

Lemma update_file_run s f w st d n :
  node_at w s = Some (File st d) ->
  put (fs w) (Path.abspath (cwd w) s) (f st d) = Some n ->
  update_file s f w = (Ok tt, tick (set_fs n w)).
Proof. intros E P. unfold update_file. now rewrite E, P. Qed.

Lemma os_stat_run s w st d :
  node_at w s = Some (File st d) -> os_stat s w = (Ok st, w).
Proof. intros E. unfold os_stat. now rewrite E. Qed.

(** Copying a used file over its own copy changes nothing in the
    filesystem, whether the copy goes through or stops. *)
Lemma copy2_again p dst w r w' f ps Dd st d :
  Path.abspath (cwd w) p = ps -> Path.basename p = f -> Path.valid_name f = true ->
  Path.abspath (cwd w) dst = Dd -> dst <> "" ->
  resolve (fs w) ps = Some (File st d) -> (st_mtime st < st_atime st)%Z ->
  resolve (fs w) (Dd ++ [f]) = Some (File st d) ->
  shutil_copy2 p dst w = (r, w') ->
  fs w' = fs w /\ cwd w' = cwd w.
Proof.
  intros Hps Hf Hv HD Hne E Hused Ed H.
  assert (Hdir : isdir_at w dst = true).
  { unfold isdir_at, node_at. rewrite HD.
    change (Dd ++ [f]) with (Dd ++ f :: []) in Ed.
    destruct (resolve_continues _ _ _ _ Ed) as [es ->]; [discriminate | reflexivity]. }
  assert (Hpd : Path.abspath (cwd w) (Path.join dst f) = Dd ++ [f])
    by (now rewrite (abspath_join _ _ _ Hne Hv), HD).
  unfold shutil_copy2 in H.
  rewrite (bind_ok (os_path_isdir dst) _ w _ w eq_refl), Hdir, Hf in H. cbv zeta in H.
  unfold shutil_copyfile at 1 in H.
  rewrite bind_assoc, (bind_ok get _ w _ w eq_refl) in H.
  destruct (path_eqb _ _ && _) eqn:Same.
  { rewrite (bind_raise (raise _) _ w _ w eq_refl) in H. injection H as _ <-. auto. }
  assert (Hneq : ps <> Dd ++ [f]).
  { intros Heq. unfold path_eqb, node_at in Same. rewrite Hps, Hpd, E in Same.
    destruct (list_eq_dec string_dec ps (Dd ++ [f])); [discriminate | congruence]. }
  rewrite bind_assoc in H.
  assert (En : node_at w p = Some (File st d)) by (unfold node_at; now rewrite Hps).
  pose proof (read_file_run _ _ _ _ En Hused) as Hr.
  destruct (owner_can_read st).
  2:{ rewrite (bind_raise _ _ _ _ _ Hr) in H. injection H as _ <-. auto. }
  rewrite (bind_ok _ _ _ _ _ Hr) in H. clear Hr.
  assert (Ed1 : node_at (tick w) (Path.join dst f) = Some (File st d))
    by (unfold node_at; simpl; now rewrite Hpd).
  pose proof (write_file_run _ d _ _ _ Ed1) as Hw. simpl in Hw. rewrite Hpd in Hw.
  destruct (owner_can_write st).
  2:{ rewrite (bind_raise _ _ _ _ _ Hw) in H. injection H as _ <-. auto. }
  destruct (put_defined _ _ _
              (File (mkstat (st_mode st) (st_atime st) (clock w + 1)) d) Ed) as [n2 P2].
  rewrite P2 in Hw. rewrite (bind_ok _ _ _ _ _ Hw) in H. clear Hw.
  set (w2 := tick (set_fs n2 (tick w))) in *.
  (* copystat *)
  unfold shutil_copystat in H. rewrite !bind_assoc in H.
  assert (E2 : node_at w2 p = Some (File st d)).
  { unfold node_at. simpl. rewrite Hps.
    erewrite put_file_frame; [exact E | exact P2 | now rewrite Ed | exact Hneq
      | now rewrite E]. }
  rewrite (bind_ok _ _ _ _ _ (os_stat_run _ _ _ _ E2)) in H.
  assert (Ed2 : node_at w2 (Path.join dst f)
                = Some (File (mkstat (st_mode st) (st_atime st) (clock w + 1)) d)).
  { unfold node_at. simpl. rewrite Hpd. eapply resolve_put_same; eauto. }
  assert (P3 : put (fs w2) (Path.abspath (cwd w2) (Path.join dst f))
                 (File (mkstat (st_mode st) (st_atime st) (st_mtime st)) d)
               = Some (fs w)).
  { simpl. rewrite Hpd, (put_put _ _ _ _ _ P2).
    replace (mkstat (st_mode st) (st_atime st) (st_mtime st)) with st by now destruct st.
    now apply put_same. }
  unfold os_utime in H. rewrite !bind_assoc in H.
  rewrite (bind_ok _ _ _ _ _
             (update_file_run _ (fun st0 d0 => File (mkstat (st_mode st0) (st_atime st) (st_mtime st)) d0)
                _ _ _ _ Ed2 P3)) in H.
  set (w3 := tick (set_fs (fs w) w2)) in *.
  rewrite (bind_ok (fun w => (Ok tt, log _ w)) _ w3 tt _ eq_refl) in H.
  set (w4 := log _ w3) in *.
  assert (Ed4 : node_at w4 (Path.join dst f) = Some (File st d))
    by (unfold node_at; simpl; now rewrite Hpd).
  assert (P4 : put (fs w4) (Path.abspath (cwd w4) (Path.join dst f))
                 (File (mkstat (st_mode st) (st_atime st) (st_mtime st)) d)
               = Some (fs w)).
  { simpl. rewrite Hpd.
    replace (mkstat (st_mode st) (st_atime st) (st_mtime st)) with st by now destruct st.
    now apply put_same. }
  unfold os_chmod in H.
  rewrite (bind_ok _ _ _ _ _
             (update_file_run _ (fun st0 d0 => File (mkstat (st_mode st) (st_atime st0) (st_mtime st0)) d0)
                _ _ _ _ Ed4 P4)) in H.
  injection H as _ <-. auto.
Qed.

Lemma parent_dirs_below w src_s root rel f :
  root <> "" ->
  Path.abspath (cwd w) root = Path.abspath (cwd w) src_s ++ rel ->
  valid rel -> Path.valid_name f = true ->
  Path.abspath (cwd w) (root ++ "/" ++ f)%string
  = Path.abspath (cwd w) src_s ++ rel ++ [f]
  /\ parent_dirs_of w (root ++ "/" ++ f)%string src_s = Path.join_slash rel.
Proof.
  intros Hroot Hr Hrel Hf.
  assert (Hps : Path.abspath (cwd w) (root ++ "/" ++ f)%string
                = Path.abspath (cwd w) src_s ++ rel ++ [f])
    by (rewrite (abspath_child _ _ _ Hroot Hf), Hr, <- app_assoc; reflexivity).
  split; [exact Hps|]. unfold parent_dirs_of.
  rewrite (relpath_below _ _ _ (rel ++ [f]) Hps); [|now destruct rel].
  now rewrite (split_relative _ _ Hrel Hf).
Qed.

(** Copying a used file again, over the copy that is in place. *)
Lemma parent_copy_again src_s dst_s S D w r w' root rel f st d :
  Path.abspath (cwd w) src_s = S -> Path.abspath (cwd w) dst_s = D -> dst_s <> "" ->
  root <> "" -> Path.abspath (cwd w) root = S ++ rel ->
  valid rel -> Path.valid_name f = true ->
  resolve (fs w) (S ++ rel ++ [f]) = Some (File st d) ->
  (st_mtime st < st_atime st)%Z ->
  resolve (fs w) (D ++ rel ++ [f]) = Some (File st d) ->
  parent_copy (root ++ "/" ++ f) dst_s src_s w = (r, w') ->
  fs w' = fs w /\ cwd w' = cwd w.
Proof.
  intros HS HD Hdst Hroot Hr Hrel Hf E Hu Ed H.
  destruct (valid_name_inv _ Hf) as (Hslash & _).
  rewrite <- HS in Hr.
  destruct (parent_dirs_below _ _ _ _ _ Hroot Hr Hrel Hf) as [Hps Hpd].
  rewrite HS in Hps.
  assert (Hbody : forall r0 w1,
    (rel0 <- os_path_relpath (root ++ "/" ++ f) src_s ;;
     (let parent_dirs := fst (Path.split rel0) in
      dst <- (if negb (parent_dirs =? "") then
                (let dst := (dst_s ++ "/" ++ parent_dirs)%string in
                 e <- os_path_exists dst ;;
                 (if negb e then os_makedirs dst 493 else ret tt) ;;;
                 ret dst)
              else ret dst_s) ;;
      shutil_copy2 (root ++ "/" ++ f) dst)) w = (r0, w1) ->
    fs w1 = fs w /\ cwd w1 = cwd w).
  { intros r0 w1 Hb.
    rewrite (bind_ok (os_path_relpath _ _) _ w _ w eq_refl) in Hb. cbv zeta in Hb.
    unfold parent_dirs_of in Hpd. rewrite Hpd in Hb.
    destruct rel as [|x rel'].
    - simpl in Hb. rewrite (bind_ok (ret dst_s) _ w _ w eq_refl) in Hb.
      eapply copy2_again; [exact Hps | now apply basename_child | exact Hf
        | exact HD | exact Hdst | exact E | exact Hu | exact Ed | exact Hb].
    - destruct (join_slash_shape (x :: rel') Hrel) as [Hne _]; [discriminate|].
      apply String.eqb_neq in Hne. rewrite Hne in Hb. cbn [negb] in Hb.
      assert (Hd2 : Path.abspath (cwd w) (dst_s ++ "/" ++ Path.join_slash (x :: rel'))%string
                    = D ++ x :: rel')
        by (rewrite (abspath_below _ _ _ Hdst Hrel), HD; [reflexivity | discriminate]).
      assert (Hex : exists_at w (dst_s ++ "/" ++ Path.join_slash (x :: rel'))%string = true).
      { unfold exists_at, node_at. rewrite Hd2. rewrite app_assoc in Ed.
        destruct (resolve_continues _ _ _ _ Ed) as [es ->]; [discriminate | reflexivity]. }
      rewrite bind_assoc, (bind_ok (os_path_exists _) _ w _ w eq_refl), Hex in Hb.
      cbn [negb] in Hb. rewrite bind_assoc, bind_ret, bind_ret in Hb.
      eapply copy2_again; [exact Hps | now apply basename_child | exact Hf
        | exact Hd2 | | exact E | exact Hu | | exact Hb].
      + destruct dst_s; [congruence | discriminate].
      + now rewrite <- app_assoc. }
  unfold parent_copy in H. apply try_inv in H.
  destruct H as [(a & H & _)|(e & w1 & H & [= _ <-])]; eapply Hbody; eauto.
Qed.

Lemma still_refl F c w : still F c w w.
Proof. unfold still. auto. Qed.

Lemma still_trans F c w1 w2 w3 : still F c w1 w2 -> still F c w2 w3 -> still F c w1 w3.
Proof. unfold still. auto. Qed.

Lemma collect_file_again w0 src_s dst_s S D F root rel f :
  Path.abspath (cwd w0) src_s = S -> Path.abspath (cwd w0) dst_s = D -> dst_s <> "" ->
  holds_copies w0 S D F -> root <> "" -> Path.abspath (cwd w0) root = S ++ rel ->
  valid rel -> Path.valid_name f = true ->
  keeps (still F (cwd w0)) (collect_file src_s dst_s root f).
Proof.
  intros HS HD Hdst [Hsrc Hcopies] Hroot Hr Hrel Hf w r w' H [HF HC].
  eapply collect_file_inv in H; [|reflexivity].
  destruct H as [(_ & -> & _)|[(_ & _ & _ & _ & ->)|(Hs & _ & (st & d & E & Hu) & H)]];
    auto.
  rewrite <- HC in HS, HD, Hr.
  assert (Hps : Path.abspath (cwd w) (root ++ "/" ++ f)%string = S ++ rel ++ [f])
    by (rewrite (abspath_child _ _ _ Hroot Hf), Hr, <- app_assoc; reflexivity).
  unfold node_at in E. rewrite Hps, HF in E.
  assert (E0 : resolve (fs w0) (S ++ rel ++ [f]) = Some (File st d))
    by (now rewrite <- Hsrc).
  destruct (parent_copy_again _ _ _ _ _ _ _ _ _ _ _ _ HS HD Hdst Hroot Hr Hrel Hf
              (eq_trans (f_equal (fun n => resolve n _) HF) E) Hu
              (eq_trans (f_equal (fun n => resolve n _) HF) (Hcopies _ _ _ _ E0 Hs Hu)) H)
    as [H1 H2].
  split; congruence.
Qed.

Lemma clear_way_empty w S D :
  is_dir (resolve (fs w) S) = true -> resolve (fs w) D = Some (Dir []) ->
  clear_way w S D w.
Proof.
  intros _ HD rel _. rewrite resolve_app, HD.
  destruct rel as [|x rel]; simpl; [exact I | discriminate].
Qed.

(** C7 (as the code has it).  A second collection, after one that ran to
    its end from the same source into a destination apart from it in which
    no file stood where the source has a directory, leaves the whole
    filesystem as the first one left it: what it copies again, it copies
    over an identical file.  It does so whether it runs to its end or
    stops at a copy that fails. *)
Theorem second_collection_changes_nothing
    (w : world) (s d : string) (w1 : world) (r : result unit) (w2 : world)
    (Hcwd : valid (cwd w)) (Hwf : wf_node (fs w) = true)
    (Hapart : diverge (Path.abspath (cwd w) s) (Path.abspath (cwd w) d) = true)
    (Hclear : clear_way w (Path.abspath (cwd w) s) (Path.abspath (cwd w) d) w)
    (H1 : collect_tree s d w = (Ok tt, w1))
    (H2 : collect_tree s d w1 = (r, w2)) :
  fs w2 = fs w1.
Proof.
  destruct (collect_tree_ok _ _ _ _ Hcwd Hwf Hapart H1) as [Hc Hused].
  set (S := Path.abspath (cwd w) s) in *. set (D := Path.abspath (cwd w) d) in *.
  pose proof Hc as (He & Hframe & _).
  assert (C1 : cwd w1 = cwd w) by apply He.
  assert (Hvs : valid S) by now apply abspath_valid.
  assert (Hvd : valid D) by now apply abspath_valid.
  assert (Hhold : holds_copies w S D (fs w1)).
  { split.
    - intros q. apply Hframe. rewrite <- (app_nil_r D). apply diverge_app.
      now rewrite diverge_sym.
    - intros rel f st data E Hs Hu.
      destruct (Hused rel f st data E Hs Hu) as [_ Hplace].
      rewrite (Hplace Hclear). exact E. }
  unfold collect_tree in H2. rewrite reraise_id in H2.
  rewrite (bind_ok (os_path_abspath s) _ w1 _ w1 eq_refl) in H2.
  rewrite (bind_ok (os_path_abspath d) _ w1 _ w1 eq_refl) in H2.
  rewrite C1 in H2. fold S D in H2.
  set (src_s := Path.render S) in *. set (dst_s := Path.render D) in *.
  assert (HS : Path.abspath (cwd w) src_s = S) by now apply abspath_render.
  assert (HD : Path.abspath (cwd w) dst_s = D) by now apply abspath_render.
  assert (Hdst : dst_s <> "") by apply render_not_empty.
  assert (Hsrc : src_s <> "") by apply render_not_empty.
  set (body := fun (root : string) (subdirs files : list string) =>
                 for_each files (collect_file src_s dst_s root)) in *.
  assert (Hin0 : inside_src w S src_s).
  { split; [exact Hsrc|]. exists []. rewrite app_nil_r. split; [exact HS | constructor]. }
  assert (Hb : forall root subdirs files wa wb,
            inside_src w S root -> listing_at w root = Some (subdirs, files) ->
            collecting w S D w wa -> body root subdirs files wa = (Ok tt, wb) ->
            collecting w S D wa wb).
  { intros root subdirs files wa wb Hi L Hw Hrun.
    now destruct (collect_round w src_s dst_s S D HS HD Hdst Hapart Hwf
                    _ _ _ _ _ Hi L Hw Hrun). }
  pose proof (inside_src_join w S Hwf) as Hjoin.
  rewrite (os_walk_visits (collecting w S D) (inside_src w S) body w
             (collecting_refl w S D) (collecting_trans w S D) Hb
             (collecting_listing w S D Hapart Hwf)
             (collecting_islink w S D Hapart Hwf) Hjoin
             _ _ _ Hin0 Hc) in H2.
  pose proof (fun r0 s0 f0 => visits_inside (inside_src w S) w Hjoin
                                recursionlimit src_s r0 s0 f0 Hin0) as Hvi.
  assert (Hk : keeps (still (fs w1) (cwd w))
                 (for_each (fst (visits recursionlimit w src_s)) (on_visit body) ;;;
                  walk_end (snd (visits recursionlimit w src_s)))).
  { apply keeps_bind; [apply still_trans | |].
    - apply keeps_for_each; [apply still_refl | apply still_trans|].
      intros [[root sd] fl] Hv. destruct (Hvi _ _ _ Hv) as [(Hroot & rel & Hr & Hrel) L].
      apply keeps_for_each; [apply still_refl | apply still_trans|].
      intros f Hf.
      destruct (listing_at_inv _ _ _ _ L) as (es & Hes & _ & Hfl).
      unfold node_at in Hes. rewrite Hr in Hes.
      apply Hfl in Hf. destruct Hf as [Hf _].
      destruct (inside_entry w S Hwf _ _ _ _ Hroot Hr Hes Hf) as (Hv' & _).
      eapply collect_file_again; eauto.
    - intros _. unfold walk_end. destruct (snd _);
        [apply keeps_ret, still_refl | apply keeps_raise, still_refl]. }
  apply Hk in H2. now destruct H2.
Qed.

Lemma second_collection_changes_nothing_witness :
  fs (snd (collect_tree "/s" "/out" (snd (collect_tree "/s" "/out" sample))))
  = fs (snd (collect_tree "/s" "/out" sample)).
Proof.
  apply (second_collection_changes_nothing sample "/s" "/out"
           (snd (collect_tree "/s" "/out" sample))
           (fst (collect_tree "/s" "/out" (snd (collect_tree "/s" "/out" sample)))));
    [ constructor | reflexivity | reflexivity
    | apply clear_way_empty; reflexivity
    | vm_compute; reflexivity
    | vm_compute; reflexivity ].
Defined.

(** C7, counterexample.  In the sample tree [sub/ro.h] is read-only.  The
    first collection copies [main.c], [sub/b.c] and [sub/ro.h] and the copy
    of [ro.h] gets its mode; the second collection copies [main.c] and
    [sub/b.c] again and then fails on the copy of [ro.h], which it cannot
    open for writing: it does not copy the same set of files. *)
Lemma second_collection_stops_at_read_only :
  let w1 := snd (collect_tree "/s" "/out" sample) in
  let w2 := snd (collect_tree "/s" "/out" w1) in
  fst (collect_tree "/s" "/out" sample) = Ok tt
  /\ In (ECopy ["s"; "sub"; "ro.h"] ["out"; "sub"; "ro.h"]) (trace w1)
  /\ fst (collect_tree "/s" "/out" w1)
     = Raise "Could not copy /s/sub/ro.h: [Errno 13] Permission denied: '/out/sub/ro.h'"
  /\ trace w2 = trace w1 ++ [EUtime ["out"; "main.c"] 10 5;
                             ECopy ["s"; "main.c"] ["out"; "main.c"];
                             EUtime ["out"; "sub"; "b.c"] 9 1;
                             ECopy ["s"; "sub"; "b.c"] ["out"; "sub"; "b.c"]].
Proof.
  cbv zeta.
  split; [vm_compute; reflexivity|].
  split; [vm_compute; auto 10|].
  split; vm_compute; reflexivity.
Qed.

(** ** The preparation returns *)

Lemma for_each_total {A} (R : world -> world -> Prop) (w0 : world) (l : list A) f :
  (forall w, R w w) -> (forall w1 w2 w3, R w1 w2 -> R w2 w3 -> R w1 w3) ->
  (forall x w1, In x l -> R w0 w1 -> exists w2, f x w1 = (Ok tt, w2) /\ R w1 w2) ->
  forall w, R w0 w -> exists w', for_each l f w = (Ok tt, w') /\ R w w'.
Proof.
  intros Rrefl Rtrans. induction l as [|x l IH]; intros Hf w Hw.
  - exists w. split; [reflexivity | apply Rrefl].
  - destruct (Hf x w (or_introl eq_refl) Hw) as (w1 & H1 & R1).
    destruct (IH (fun y w2 Hy => Hf y w2 (or_intror Hy)) w1 (Rtrans _ _ _ Hw R1))
      as (w' & H2 & R2).
    exists w'. split; [|eapply Rtrans; eauto].
    simpl. now rewrite (bind_ok _ _ _ _ _ H1).
Qed.

Lemma prepare_file_total a m w0 w root f subdirs files :
  wf_node (fs w0) = true -> root <> "" ->
  listing_at w0 root = Some (subdirs, files) -> In f files ->
  touched a m w0 w ->
  exists w', prepare_file a m root f w = (Ok tt, w') /\ touched a m w w'.
Proof.
  intros Hwf Hroot L Hf T.
  assert (Hk : forall w', prepare_file a m root f w = (Ok tt, w') ->
                 exists w', prepare_file a m root f w = (Ok tt, w') /\ touched a m w w')
    by (intros w' H; exists w'; split; [exact H | eapply prepare_file_touched; eauto]).
  unfold prepare_file in *. destruct (is_source f); [|now apply (Hk w)].
  destruct (listing_at_inv _ _ _ _ L) as (es & He & _ & Hfl).
  apply Hfl in Hf. destruct Hf as [Hin Hnd].
  destruct (node_at_child w0 Hwf _ _ _ Hroot He Hin) as (_ & Hj & Hc).
  destruct (in_names_assoc _ _ Hin) as [c Hc0].
  set (path := (root ++ "/" ++ f)%string) in *.
  set (p := Path.abspath (cwd w0) root ++ [f]) in *.
  assert (E0 : resolve (fs w0) p = Some c).
  { unfold p. rewrite resolve_app. unfold node_at in He. rewrite He. simpl. now rewrite Hc0. }
  pose proof T as (C & _ & Hr). specialize (Hr p). rewrite E0 in Hr.
  assert (Hp : Path.abspath (cwd w) path = p) by now rewrite C.
  rewrite (bind_ok (os_path_islink path) _ w _ w eq_refl) in *.
  unfold islink_at, node_at in *. rewrite Hp in *.
  destruct c as [st d|st to|es']; simpl in Hr.
  - assert (exists st1, resolve (fs w) p = Some (File st1 d)) as [st1 E1]
      by (destruct Hr as [->| ->]; eauto).
    rewrite E1 in *. cbn [negb] in *.
    destruct (put_defined _ _ _ (File (mkstat (st_mode st1) a m) d) E1) as [n P].
    eapply Hk. unfold os_utime.
    rewrite (bind_ok _ _ _ _ _
               (update_file_run path (fun st0 d0 => File (mkstat (st_mode st0) a m) d0)
                  w st1 d n
                  (eq_trans (f_equal (resolve (fs w)) Hp) E1)
                  (eq_trans (f_equal (fun q => put (fs w) q _) Hp) P))).
    reflexivity.
  - rewrite Hr in *. cbn [negb] in *. now apply (Hk w).
  - exfalso. unfold isdir_at, node_at in Hnd. rewrite Hj in Hnd. fold p in Hnd.
    rewrite E0 in Hnd. discriminate.
Qed.

(** On a tree that the walk can go through without running out of depth,
    the preparation returns. *)
Lemma prepare_tree_returns s w :
  s <> "" -> wf_node (fs w) = true -> snd (visits recursionlimit w s) = true ->
  exists w', prepare_tree s w = (Ok tt, w').
Proof.
  intros Hs Hwf Hok. unfold prepare_tree. rewrite reraise_id.
  rewrite (bind_ok time_time _ w (clock w) w eq_refl). cbv zeta.
  set (m := clock w). set (a := (m - seconds (48 * 3600))%Z).
  set (body := fun (root : string) (subdirs files : list string) =>
                 for_each files (prepare_file a m root)).
  assert (Hb : forall root subdirs files, keeps (touched a m) (body root subdirs files)).
  { intros root subdirs files. apply keeps_for_each.
    - apply touched_refl.
    - apply touched_trans.
    - intros f _. apply prepare_file_touched. }
  rewrite (os_walk_visits (touched a m) (fun _ => True) body w).
  - rewrite Hok.
    destruct (for_each_total (touched a m) w
                (fst (visits recursionlimit w s)) (on_visit body)
                (touched_refl a m) (touched_trans a m)) with (w := w)
      as (w' & H & _); [ | apply touched_refl | ].
    + intros [[root sd] fl] w1 Hv T.
      destruct (visits_sound w Hwf _ _ _ _ _ Hs Hv) as (Hroot & L & _).
      apply (for_each_total (touched a m) w fl (prepare_file a m root)
               (touched_refl a m) (touched_trans a m)); [|exact T].
      intros f w2 Hf T2. eapply prepare_file_total; eauto.
    + exists w'. now rewrite (bind_ok _ _ _ _ _ H).
  - apply touched_refl.
  - apply touched_trans.
  - intros root subdirs files w1 w2 _ _ _. apply Hb.
  - intros top w1 _ T. eapply touched_listing; eauto.
  - intros top name subdirs files w1 _ _ _ T. eapply touched_islink; eauto.
  - auto.
  - exact I.
  - apply touched_refl.
Qed.

Example prepare_sample_returns : exists w', prepare_tree "/s" sample = (Ok tt, w').
Proof. apply prepare_tree_returns; [discriminate | reflexivity | vm_compute; reflexivity]. Qed.

(** ** The checks of the arguments *)







(** ** A source that is not a directory *)






(** ** What the script never does *)


(** ** One copy below the destination *)





(** ** What a collection leaves alone *)

Section Outside.
Variable w0 : world.
Variable D : path.



Lemma stays_tick w : stays_outside w0 D w (tick w).
Proof. intros O. exact O. Qed.










Variables src_s dst_s : string.
Variable S : path.
Hypothesis HS : Path.abspath (cwd w0) src_s = S.
Hypothesis HD : Path.abspath (cwd w0) dst_s = D.
Hypothesis Hdst : dst_s <> "".
Hypothesis Hdiv : diverge S D = true.



End Outside.



(** ** A tree in which nothing was used *)





(** ** A collection right after a preparation *)








(** ** From the preparation to the collection *)










Example build_sample :
  let w1 := snd (prepare_tree "/s" sample) in
  let w2 := snd (build ["/s/sub/b.c"; "/s/README.md"] w1) in
  let w3 := snd (collect_tree "/s" "/out" w2) in
  trace w3 = trace w2 ++ [EMakedirs ["out"; "sub"] 493;
                          EUtime ["out"; "sub"; "b.c"] 104 100;
                          ECopy ["s"; "sub"; "b.c"] ["out"; "sub"; "b.c"]]
  /\ resolve (fs w3) ["out"; "sub"; "b.c"] = Some (regular 104 100 "B")
  /\ resolve (fs w3) ["out"; "main.c"] = None.
Proof.
  cbv zeta.
  split; [vm_compute; reflexivity|].
  split; vm_compute; reflexivity.
Qed.

(** ** What a preparation leaves alone *)







(** ** A collection into the source tree itself *)








Example collect_sample_into_itself :
  collect_tree "/s" "/s" sample
  = (Raise "Could not copy /s/main.c: `/s/main.c` and `/s/main.c` are the same file",
     sample).
Proof. vm_compute. reflexivity. Qed.
